(** * airdrop-navigator-client: [src/client/utils.mjs]

    A shallow embedding of the encrypted-storage helpers ([encryptData],
    [decryptData], [useReactiveEncryptedStorage]) and of the account registry
    ([useAccountsStorage]) together with the properties of the
    specification that concern them.

    Conventions.
    - A JavaScript string is the list of its UTF-16 code units ([list Z]).
    - A [Uint8Array] / [ArrayBuffer] is a [list byte].
    - [async] functions are sequenced: each [await] is a plain call; a
      rejected promise is the [inl] of a [result].
    - The platform primitives the module calls but does not define (the
      hash and the AEAD behind [crypto.subtle], the account factory, the
      signer, [String.prototype.toLowerCase]) are operations of an
      interface; the key derivation around them (PBKDF2 over HMAC), the
      text codecs ([TextEncoder], [TextDecoder]) and the array helpers
      ([find], [indexOf], [splice], [slice]) are written out. *)

From Stdlib Require Import ZArith Lia.
From Stdlib Require Import Init.Byte Strings.Byte Strings.Ascii Strings.String.
From stdpp Require Import base option list gmap.

Local Open Scope Z_scope.

(** ** Bytes and code units *)

Abbreviation js_string := (list Z) (only parsing).
Abbreviation bytes := (list byte) (only parsing).

Definition byte_to_Z (b : byte) : Z := Z.of_N (Byte.to_N b).

(** A string literal as a JavaScript string. *)
Definition js (s : string) : js_string :=
  map (fun a => Z.of_N (N_of_ascii a)) (list_ascii_of_string s).

(** Storing a number into a [Uint8Array] keeps it modulo 256. *)
Definition Z_to_byte (z : Z) : byte :=
  match Byte.of_N (Z.to_N (z mod 256)) with
  | Some b => b
  | None => x00
  end.

(** [String.fromCharCode(byte)] *)
Definition fromCharCode (b : byte) : Z := byte_to_Z b mod 65536.

(** ** Text codecs: [TextEncoder.encode] and [TextDecoder.decode] *)

Module Text.

Definition is_lead (c : Z) : bool := (0xD800 <=? c) && (c <=? 0xDBFF).
Definition is_trail (c : Z) : bool := (0xDC00 <=? c) && (c <=? 0xDFFF).

Definition REPLACEMENT : Z := 0xFFFD.
Definition BOM : Z := 0xFEFF.

(** Conversion of a string to scalar values, as done for every
    [USVString] argument: a surrogate pair is one scalar value, an
    unpaired surrogate becomes U+FFFD. *)
Fixpoint to_scalar_values (s : js_string) : list Z :=
  match s with
  | [] => []
  | c :: rest =>
      if is_lead c then
        match rest with
        | d :: rest' =>
            if is_trail d
            then (0x10000 + (c - 0xD800) * 0x400 + (d - 0xDC00))
                   :: to_scalar_values rest'
            else REPLACEMENT :: to_scalar_values rest
        | [] => [REPLACEMENT]
        end
      else if is_trail c then REPLACEMENT :: to_scalar_values rest
      else c :: to_scalar_values rest
  end.

(** The UTF-8 encoder on one scalar value. *)
Definition utf8_encode_scalar (cp : Z) : list Z :=
  if cp <? 0x80 then [cp]
  else if cp <? 0x800 then
    [0xC0 + cp / 0x40; 0x80 + cp mod 0x40]
  else if cp <? 0x10000 then
    [0xE0 + cp / 0x1000; 0x80 + (cp / 0x40) mod 0x40; 0x80 + cp mod 0x40]
  else
    [0xF0 + cp / 0x40000; 0x80 + (cp / 0x1000) mod 0x40;
     0x80 + (cp / 0x40) mod 0x40; 0x80 + cp mod 0x40].

Definition utf8_encode (cps : list Z) : list Z :=
  concat (map utf8_encode_scalar cps).

(** [new TextEncoder().encode(s)] *)
Definition encode (s : js_string) : bytes :=
  map Z_to_byte (utf8_encode (to_scalar_values s)).

(** The UTF-8 decoder is the state machine of the Encoding standard. *)
Record utf8_state := Utf8State {
  code_point : Z;
  bytes_seen : Z;
  bytes_needed : Z;
  lower_boundary : Z;
  upper_boundary : Z
}.

Definition utf8_initial : utf8_state := Utf8State 0 0 0 0x80 0xBF.

Inductive utf8_result :=
| Continue (st : utf8_state)
| Emit (cp : Z)
| DecodeError.

(** The handler when no byte is pending. *)
Definition utf8_lead (b : Z) : utf8_result :=
  if (0 <=? b) && (b <=? 0x7F) then Emit b
  else if (0xC2 <=? b) && (b <=? 0xDF) then
    Continue (Utf8State (b mod 0x20) 0 1 0x80 0xBF)
  else if (0xE0 <=? b) && (b <=? 0xEF) then
    Continue (Utf8State (b mod 0x10) 0 2
                (if b =? 0xE0 then 0xA0 else 0x80)
                (if b =? 0xED then 0x9F else 0xBF))
  else if (0xF0 <=? b) && (b <=? 0xF4) then
    Continue (Utf8State (b mod 0x8) 0 3
                (if b =? 0xF0 then 0x90 else 0x80)
                (if b =? 0xF4 then 0x8F else 0xBF))
  else DecodeError.

(** Decoding in replacement mode (the default, [fatal: false]): an
    error emits U+FFFD; a byte that breaks a pending sequence is put
    back and handled again from the initial state. *)
Fixpoint utf8_decode_from (st : utf8_state) (input : list Z) : list Z :=
  match input with
  | [] => if bytes_needed st =? 0 then [] else [REPLACEMENT]
  | b :: rest =>
      let restart :=
        match utf8_lead b with
        | Emit cp => cp :: utf8_decode_from utf8_initial rest
        | Continue st' => utf8_decode_from st' rest
        | DecodeError => REPLACEMENT :: utf8_decode_from utf8_initial rest
        end in
      if bytes_needed st =? 0 then restart
      else if (b <? lower_boundary st) || (upper_boundary st <? b) then
        REPLACEMENT :: restart
      else
        let cp := code_point st * 0x40 + b mod 0x40 in
        let seen := bytes_seen st + 1 in
        if seen =? bytes_needed st
        then cp :: utf8_decode_from utf8_initial rest
        else utf8_decode_from
               (Utf8State cp seen (bytes_needed st) 0x80 0xBF) rest
  end.

Definition utf8_decode (input : list Z) : list Z :=
  utf8_decode_from utf8_initial input.

(** A decoder created without [ignoreBOM] drops a leading U+FEFF. *)
Definition strip_bom (cps : list Z) : list Z :=
  match cps with
  | c :: rest => if c =? BOM then rest else cps
  | [] => []
  end.

(** A code point as UTF-16 code units. *)
Definition utf16_units (cp : Z) : list Z :=
  if cp <? 0x10000 then [cp]
  else [0xD800 + (cp - 0x10000) / 0x400; 0xDC00 + (cp - 0x10000) mod 0x400].

(** [new TextDecoder().decode(buffer)] *)
Definition decode (buffer : bytes) : js_string :=
  concat (map utf16_units (strip_bom (utf8_decode (map byte_to_Z buffer)))).

(** Strings that are sequences of scalar values: every code unit is a
    16-bit number and every surrogate is half of a pair. *)
Fixpoint well_formed (s : js_string) : bool :=
  match s with
  | [] => true
  | c :: rest =>
      if is_lead c then
        match rest with
        | d :: rest' => is_trail d && well_formed rest'
        | [] => false
        end
      else (0 <=? c) && (c <=? 0xFFFF) && negb (is_trail c)
           && well_formed rest
  end.

(** Scalar values: code points that are not surrogates. *)
Definition scalar (cp : Z) : Prop :=
  0 <= cp <= 0x10FFFF /\ ~ (0xD800 <= cp <= 0xDFFF).

Definition starts_with_bom (s : js_string) : bool :=
  match s with
  | c :: _ => c =? BOM
  | [] => false
  end.

End Text.

(** ** Errors, and the sequencing of fallible and random steps *)

(** What a rejected promise of this module can carry: the
    [DOMException]s of [crypto.subtle] and the [RangeError] of
    [TypedArray.prototype.set]. *)
Inductive js_error :=
| NotSupportedError
| SyntaxError
| InvalidAccessError
| DataError
| OperationError
| RangeError.

#[global] Instance js_error_eq_dec : EqDecision js_error.
Proof. solve_decision. Defined.

Abbreviation result := (sum js_error) (only parsing).

#[global] Instance result_ret : MRet (sum js_error) := fun A x => inr x.
#[global] Instance result_bind : MBind (sum js_error) :=
  fun A B f m => match m with inl e => inl e | inr x => f x end.

(** The cryptographically secure random source, as a tape of bytes read
    from a cursor: every read is of positions never read before. *)
Record entropy := Entropy { tape : nat -> byte; cursor : nat }.

(** Computations that may draw random bytes and may fail. *)
Definition Rand (A : Type) : Type := entropy -> (js_error + A) * entropy.

#[global] Instance Rand_ret : MRet Rand := fun A x rng => (inr x, rng).
#[global] Instance Rand_bind : MBind Rand :=
  fun A B f m rng =>
    match m rng with
    | (inl e, rng') => (inl e, rng')
    | (inr x, rng') => f x rng'
    end.

Definition lift {A} (r : js_error + A) : Rand A := fun rng => (r, rng).

(** [crypto.getRandomValues(new Uint8Array(n))] *)
Definition getRandomValues (n : nat) : Rand bytes :=
  fun rng =>
    (inr (map (tape rng) (seq (cursor rng) n)),
     Entropy (tape rng) (cursor rng + n)).

(** ** Typed arrays *)

(** [new Uint8Array(n)] *)
Definition Uint8Array_new (n : nat) : bytes := replicate n x00.

(** [target.set(source, offset)] *)
Definition Uint8Array_set (target source : bytes) (offset : nat)
  : js_error + bytes :=
  if (length target <? offset + length source)%nat then inl RangeError
  else inr (take offset target ++ source
              ++ drop (offset + length source) target).

(** [array.slice(start, end)] and [array.slice(start)] for the
    non-negative constant bounds the module uses. *)
Definition slice (start stop : nat) (a : bytes) : bytes :=
  take (stop - start) (drop start a).
Definition slice_from (start : nat) (a : bytes) : bytes := drop start a.

(** ** [crypto.subtle] *)

Module WebCrypto.

Inductive hash_name := SHA_1 | SHA_256 | SHA_384 | SHA_512.

(** Block and output sizes of the hash functions, in bytes. *)
Definition block_size (h : hash_name) : nat :=
  match h with SHA_1 | SHA_256 => 64 | SHA_384 | SHA_512 => 128 end.
Definition output_size (h : hash_name) : nat :=
  match h with SHA_1 => 20 | SHA_256 => 32 | SHA_384 => 48 | SHA_512 => 64 end.

(** The primitives under [crypto.subtle]: the hash functions, and the
    authenticated encryption and decryption functions of GCM over AES
    with a 128-bit tag and no additional data. [gcm_ae K IV P] is the
    pair of the ciphertext and the tag; [gcm_ad K IV C T] is the
    plaintext, or [None] when the tag does not verify. *)
Class Primitives := {
  digest : hash_name -> bytes -> bytes;
  gcm_ae : bytes -> bytes -> bytes -> bytes * bytes;
  gcm_ad : bytes -> bytes -> bytes -> bytes -> option bytes
}.

(** What the primitives guarantee: digests of the size of the hash;
    tags of 16 bytes, and decryption under the key and nonce of the
    encryption gives the plaintext back. *)
Record HashLawful `{Primitives} : Prop := {
  digest_length : forall h m, length (digest h m) = output_size h
}.

Record GcmLawful `{Primitives} : Prop := {
  gcm_tag_length : forall K IV P, length (gcm_ae K IV P).2 = 16%nat;
  gcm_ad_ae : forall K IV P,
    gcm_ad K IV (gcm_ae K IV P).1 (gcm_ae K IV P).2 = Some P
}.


Definition xor_byte (a b : byte) : byte :=
  Z_to_byte (Z.lxor (byte_to_Z a) (byte_to_Z b)).

Definition xor_bytes (a b : bytes) : bytes := zip_with xor_byte a b.

Inductive key_usage :=
| UsageEncrypt | UsageDecrypt | UsageSign | UsageVerify
| UsageDeriveKey | UsageDeriveBits | UsageWrapKey | UsageUnwrapKey.

#[global] Instance key_usage_eq_dec : EqDecision key_usage.
Proof. solve_decision. Defined.

Inductive key_format := FormatRaw | FormatPkcs8 | FormatSpki | FormatJwk.

#[global] Instance key_format_eq_dec : EqDecision key_format.
Proof. solve_decision. Defined.

Inductive algorithm_name := PBKDF2 | AES_GCM.

#[global] Instance algorithm_name_eq_dec : EqDecision algorithm_name.
Proof. solve_decision. Defined.

Record CryptoKey := {
  key_algorithm : algorithm_name;
  key_extractable : bool;
  key_usages : list key_usage;
  key_handle : bytes
}.

(** [{ name: 'PBKDF2', salt, iterations, hash }] *)
Record Pbkdf2Params := {
  salt : bytes;
  iterations : Z;
  hash : hash_name
}.

(** [crypto.subtle.importKey(format, keyData, { name }, extractable, usages)] *)
Definition importKey (format : key_format) (keyData : bytes)
    (name : algorithm_name) (extractable : bool) (usages : list key_usage)
  : js_error + CryptoKey :=
  match name with
  | PBKDF2 =>
      if negb (bool_decide (format = FormatRaw)) then inl NotSupportedError
      else if negb (forallb (fun u => bool_decide (u ∈ [UsageDeriveKey; UsageDeriveBits]))
                      usages) then inl SyntaxError
      else if extractable then inl SyntaxError
      else if bool_decide (usages = []) then inl SyntaxError
      else inr {| key_algorithm := PBKDF2; key_extractable := false;
                  key_usages := usages; key_handle := keyData |}
  | AES_GCM =>
      if negb (forallb (fun u => bool_decide
                          (u ∈ [UsageEncrypt; UsageDecrypt;
                                UsageWrapKey; UsageUnwrapKey])) usages)
      then inl SyntaxError
      else if negb (bool_decide (format = FormatRaw)) then inl NotSupportedError
      else if negb (bool_decide (Z.of_nat (length keyData) * 8 ∈ [128; 192; 256]))
      then inl DataError
      else if bool_decide (usages = []) then inl SyntaxError
      else inr {| key_algorithm := AES_GCM; key_extractable := extractable;
                  key_usages := usages; key_handle := keyData |}
  end.

Section derivation.
Context `{Primitives}.

(** HMAC: a key longer than a block is hashed, a shorter one is padded
    with zero bytes to a block. *)
Definition hmac_key (h : hash_name) (key : bytes) : bytes :=
  let k := if (block_size h <? length key)%nat then digest h key else key in
  k ++ replicate (block_size h - length k) x00.

Definition hmac (h : hash_name) (key msg : bytes) : bytes :=
  digest h (map (xor_byte x5c) (hmac_key h key)
              ++ digest h (map (xor_byte x36) (hmac_key h key) ++ msg)).

Definition int32be (i : nat) : bytes :=
  [Z_to_byte (Z.of_nat i / 2 ^ 24); Z_to_byte (Z.of_nat i / 2 ^ 16);
   Z_to_byte (Z.of_nat i / 2 ^ 8); Z_to_byte (Z.of_nat i)].

(** PBKDF2 with HMAC as its pseudorandom function: block [i] is
    [U1 xor ... xor Uc], with [U1 = hmac password (salt || i)] and
    [U(j+1) = hmac password Uj]. *)
Fixpoint pbkdf2_rounds (h : hash_name) (password u acc : bytes) (n : nat)
  : bytes :=
  match n with
  | O => acc
  | S n' =>
      let u' := hmac h password u in
      pbkdf2_rounds h password u' (xor_bytes acc u') n'
  end.

Definition pbkdf2_block (h : hash_name) (password salt : bytes) (c i : nat)
  : bytes :=
  let u1 := hmac h password (salt ++ int32be i) in
  pbkdf2_rounds h password u1 u1 (c - 1).

Definition pbkdf2 (h : hash_name) (password salt : bytes) (c dkLen : nat)
  : bytes :=
  let blocks := ((dkLen + output_size h - 1) / output_size h)%nat in
  take dkLen (concat (map (pbkdf2_block h password salt c) (seq 1 blocks))).

(** [crypto.subtle.deriveKey(params, baseKey, { name: 'AES-GCM', length },
    extractable, usages)] for PBKDF2 parameters. *)
Definition deriveKey (params : Pbkdf2Params) (baseKey : CryptoKey)
    (length : Z) (extractable : bool) (usages : list key_usage)
  : js_error + CryptoKey :=
  if negb (bool_decide (key_algorithm baseKey = PBKDF2))
  then inl InvalidAccessError
  else if negb (bool_decide (UsageDeriveKey ∈ key_usages baseKey))
  then inl InvalidAccessError
  else if negb (bool_decide (length ∈ [128; 192; 256]))
  then inl OperationError
  else if bool_decide (iterations params = 0) then inl OperationError
  else
    let secret :=
      pbkdf2 (hash params) (key_handle baseKey) (salt params)
        (Z.to_nat (iterations params)) (Z.to_nat (length / 8)) in
    importKey FormatRaw secret AES_GCM extractable usages.

(** [crypto.subtle.encrypt({ name: 'AES-GCM', iv }, key, data)]: the
    ciphertext followed by the tag. JavaScript strings are too short for
    their encoding to reach the length limit of GCM. *)
Definition encrypt (iv : bytes) (key : CryptoKey) (data : bytes)
  : js_error + bytes :=
  if negb (bool_decide (key_algorithm key = AES_GCM))
  then inl InvalidAccessError
  else if negb (bool_decide (UsageEncrypt ∈ key_usages key))
  then inl InvalidAccessError
  else
    let '(C, T) := gcm_ae (key_handle key) iv data in
    inr (C ++ T).

(** [crypto.subtle.decrypt({ name: 'AES-GCM', iv }, key, data)]: data
    shorter than a tag is rejected, the last 16 bytes are the tag, and a
    tag that does not verify is rejected with the same error. *)
Definition decrypt (iv : bytes) (key : CryptoKey) (data : bytes)
  : js_error + bytes :=
  if negb (bool_decide (key_algorithm key = AES_GCM))
  then inl InvalidAccessError
  else if negb (bool_decide (UsageDecrypt ∈ key_usages key))
  then inl InvalidAccessError
  else if (length data <? 16)%nat then inl OperationError
  else
    let C := take (length data - 16) data in
    let T := drop (length data - 16) data in
    match gcm_ad (key_handle key) iv C T with
    | Some P => inr P
    | None => inl OperationError
    end.

End derivation.

End WebCrypto.

(** ** [encryptData] and [decryptData] *)

Section cipher.
Import WebCrypto.
Context `{Primitives}.

Definition encryptData (data password : js_string) : Rand js_string :=
  let passwordBuffer := Text.encode password in
  salt ← getRandomValues 16;
  key ← lift (importKey FormatRaw passwordBuffer PBKDF2 false
                [UsageDeriveKey]);
  derivedKey ← lift (deriveKey
                       {| salt := salt; iterations := 1000; hash := SHA_256 |}
                       key 256 true [UsageEncrypt; UsageDecrypt]);
  let encoded := Text.encode data in
  iv ← getRandomValues 12;
  encryptedData ← lift (encrypt iv derivedKey encoded);
  let encryptedArray := encryptedData in
  let combinedArray :=
    Uint8Array_new (length salt + length iv + length encryptedArray) in
  combinedArray ← lift (Uint8Array_set combinedArray salt 0);
  combinedArray ← lift (Uint8Array_set combinedArray iv (length salt));
  combinedArray ← lift (Uint8Array_set combinedArray encryptedArray
                          (length salt + length iv));
  mret (map fromCharCode combinedArray).

Definition decryptData (data password : js_string) : js_error + js_string :=
  let passwordBuffer := Text.encode password in
  let dataArray := map Z_to_byte data in
  let salt := slice 0 16 dataArray in
  let iv := slice 16 28 dataArray in
  let encryptedData := slice_from 28 dataArray in
  key ← importKey FormatRaw passwordBuffer PBKDF2 false [UsageDeriveKey];
  derivedKey ← deriveKey
                 {| salt := salt; iterations := 1000; hash := SHA_256 |}
                 key 256 true [UsageEncrypt; UsageDecrypt];
  decryptedData ← decrypt iv derivedKey encryptedData;
  mret (Text.decode decryptedData).

(** The key derivation, as both functions perform it (lines 133-147 and
    175-189): import the encoded password, derive an AES-GCM key. *)
Definition derive (password : js_string) (salt : bytes)
  : js_error + CryptoKey :=
  key ← importKey FormatRaw (Text.encode password) PBKDF2 false
          [UsageDeriveKey];
  deriveKey {| salt := salt; iterations := 1000; hash := SHA_256 |}
    key 256 true [UsageEncrypt; UsageDecrypt].

(** The key material that derivation computes. *)
Definition derived_key (password : js_string) (salt : bytes) : bytes :=
  pbkdf2 SHA_256 (Text.encode password) salt 1000 32.

(** The salt and the nonce that [encryptData] draws from a random
    source, and the blob it builds from them. *)
Definition drawn_salt (rng : entropy) : bytes :=
  map (tape rng) (seq (cursor rng) 16).
Definition drawn_iv (rng : entropy) : bytes :=
  map (tape rng) (seq (cursor rng + 16) 12).
Definition sealed (data password : js_string) (rng : entropy) : bytes :=
  let '(C, T) := gcm_ae (derived_key password (drawn_salt rng))
                   (drawn_iv rng) (Text.encode data) in
  C ++ T.

End cipher.

(** ** An instance of the primitives

    A small stand-in for the hash and for GCM, with their interface and
    their laws and none of their strength, on which the definitions can
    be run on concrete inputs. *)

Module Toy.
Import WebCrypto.

#[global] Instance byte_eq_dec : EqDecision byte := Byte.byte_eq_dec.

Definition checksum (m : bytes) : Z :=
  fold_left (fun acc b => Z.land (acc * 31 + byte_to_Z b + 1) 0xFFFFFF) m 7.

Definition toy_digest (h : hash_name) (m : bytes) : bytes :=
  let c := checksum m in
  map (fun j => Z_to_byte (Z.shiftr (c * (2 * Z.of_nat j + 1)) 3 + Z.of_nat j))
    (seq 0 (output_size h)).

Definition toy_tag (K IV C : bytes) : bytes :=
  let c := checksum (K ++ IV ++ C) in
  map (fun j => Z_to_byte (Z.shiftr c (Z.of_nat j) + Z.of_nat j)) (seq 0 16).

Definition toy_ae (K IV P : bytes) : bytes * bytes :=
  let k := checksum (K ++ IV) in
  let C := map (fun b => Z_to_byte (byte_to_Z b + k)) P in
  (C, toy_tag K IV C).

Definition toy_ad (K IV C T : bytes) : option bytes :=
  let k := checksum (K ++ IV) in
  if decide (T = toy_tag K IV C)
  then Some (map (fun b => Z_to_byte (byte_to_Z b - k)) C)
  else None.

#[global] Instance primitives : Primitives :=
  {| digest := toy_digest; gcm_ae := toy_ae; gcm_ad := toy_ad |}.




(** A random source that counts. *)
Definition counting : entropy :=
  Entropy (fun i => Z_to_byte (Z.of_nat i * 7 + 3)) 0.

End Toy.

(** ** [useReactiveEncryptedStorage] *)

Module Storage.

(** The texts shown with [ElMessage.error]. *)
Inductive message :=
| PasswordNotSet     (* 'Пароль не задан!' *)
| StorageReadError   (* 'Ошибка при чтении хранилища!' *)
| StorageWriteError. (* 'Ошибка при записи в хранилище!' *)

(** What the function does to the world, in order. *)
Inductive effect :=
| LocalStorageGetItem (name : js_string)
| LocalStorageSetItem (name value : js_string)
| ElMessageError (m : message)
| ConsoleError (e : js_error).

Record world := World {
  localStorage : gmap js_string js_string;
  effects : list effect;
  random : entropy
}.

Definition log (e : effect) (w : world) : world :=
  World (localStorage w) (effects w ++ [e]) (random w).

Definition getItem (name : js_string) (w : world)
  : option js_string * world :=
  (localStorage w !! name, log (LocalStorageGetItem name) w).

Definition setItem (name value : js_string) (w : world) : world :=
  log (LocalStorageSetItem name value)
    (World (<[name := value]> (localStorage w)) (effects w) (random w)).

(** A string or [null] as a condition. *)
Definition truthy (s : option js_string) : bool :=
  match s with
  | Some (_ :: _) => true
  | Some [] | None => false
  end.

(** What the function resolves to: the reactive value, or what
    [ElMessage.error] returned. *)
Inductive opened (T : Type) :=
| Store (value : T)
| MessageHandle (m : message).
Arguments Store {T} value.
Arguments MessageHandle {T} m.

Section store.
(** The shape of the stored value, which of its values are falsy, and
    the [encode] and [decode] options. *)
Context {T : Type} (falsy : T -> bool).
Context (encode : T -> Rand js_string) (decode : js_string -> js_error + T).

(** The body of the watcher: encode the value and persist it; a failure
    is logged and shown. *)
Definition write_back (name : js_string) (storage : T) (w : world) : world :=
  match encode storage (random w) with
  | (inr blob, rng) =>
      setItem name blob (World (localStorage w) (effects w) rng)
  | (inl e, rng) =>
      log (ElMessageError StorageWriteError)
        (log (ConsoleError e) (World (localStorage w) (effects w) rng))
  end.

Definition useReactiveEncryptedStorage (storagePassword : option js_string)
    (name : js_string) (defaultValue : T) (w : world) : opened T * world :=
  if negb (truthy storagePassword)
  then (MessageHandle PasswordNotSet, log (ElMessageError PasswordNotSet) w)
  else
    let '(item, w) := getItem name w in
    let '(storage, w) :=
      if truthy item then
        let '(item, w) := getItem name w in
        match item with
        | Some data =>
            match decode data with
            | inr value => (Some value, w)
            | inl e =>
                (None, log (ElMessageError StorageReadError)
                         (log (ConsoleError e) w))
            end
        | None => (None, w)
        end
      else (None, w) in
    let storage :=
      match storage with
      | Some value => if falsy value then defaultValue else value
      | None => defaultValue
      end in
    (* watch(storage, ..., { deep: true, immediate: true }) *)
    let w := write_back name storage w in
    (Store storage, w).

(** The promise of the [async] function: fulfilled, [inr], with what
    the body returns. The body has no [throw], and the rejections of
    [decode] and [encode] are caught in it. *)
Definition useReactiveEncryptedStorage_promise
    (storagePassword : option js_string) (name : js_string)
    (defaultValue : T) (w : world) : (js_error + opened T) * world :=
  let '(resolved, w) :=
    useReactiveEncryptedStorage storagePassword name defaultValue w in
  (inr resolved, w).

End store.

End Storage.

(** ** [useAccountsStorage] *)

(** [array.splice(start, deleteCount)]: a negative start counts from the
    end. *)
Definition splice {A} (start deleteCount : Z) (l : list A) : list A :=
  let len := Z.of_nat (length l) in
  let actualStart :=
    if start <? 0 then Z.max (len + start) 0 else Z.min start len in
  let actualDeleteCount :=
    Z.min (Z.max deleteCount 0) (len - actualStart) in
  take (Z.to_nat actualStart) l
    ++ drop (Z.to_nat (actualStart + actualDeleteCount)) l.

(** [const version = 2] *)
Definition version : Z := 2.

Module Registry.

Record account := Account { address : js_string; privateKey : js_string }.

#[global] Instance account_eq_dec : EqDecision account.
Proof. solve_decision. Defined.

Inductive status := AUTHORIZING | UNAUTHORIZED | ONLINE.

#[global] Instance status_eq_dec : EqDecision status.
Proof. solve_decision. Defined.

(** What [socket.emit] sends; ['response-' + messageId] is [Response]. *)
Inductive emitted :=
| AddAddress (blockchain address : js_string) (version : Z)
| RemoveAddress (blockchain address : js_string)
| Response (messageId : js_string) (success : bool)
    (signature : option js_string).

(** The texts shown with [ElMessage.error], with the address they end
    with. *)
Inductive notice :=
| AddressNotFound11 (address : js_string)  (* 'Адрес не найден11: ' *)
| AddressNotFound12 (address : js_string)  (* 'Адрес не найден12: ' *)
| AddressNotFound13 (address : js_string). (* 'Адрес не найден13: ' *)

(** The state the closures of [useAccountsStorage] share, with what was
    sent to the peer and shown to the user, oldest first. *)
Record registry := Registry {
  accounts : list account;
  accountsStatus : gmap js_string status;
  outbox : list emitted;
  notices : list notice
}.

(** The payload of [addressAuthChallenge]. *)
Record challenge := Challenge {
  messageId : js_string;
  payload_blockchain : js_string;
  payload_address : js_string;
  dataToSign : js_string
}.

Definition emit (e : emitted) (r : registry) : registry :=
  Registry (accounts r) (accountsStatus r) (outbox r ++ [e]) (notices r).

Definition ElMessage_error (n : notice) (r : registry) : registry :=
  Registry (accounts r) (accountsStatus r) (outbox r) (notices r ++ [n]).

Definition accountsStatus_set (key : js_string) (s : status) (r : registry)
  : registry :=
  Registry (accounts r) (<[key := s]> (accountsStatus r)) (outbox r)
    (notices r).

Definition accountsStatus_delete (key : js_string) (r : registry)
  : registry :=
  Registry (accounts r) (delete key (accountsStatus r)) (outbox r)
    (notices r).

(** [accounts.indexOf(account)], where [account] is what [find]
    returned: an element of the list, or [undefined]. *)
Definition indexOf (l : list account) (a : option account) : Z :=
  match a with
  | Some a =>
      match list_find (fun b => b = a) l with
      | Some (i, _) => Z.of_nat i
      | None => -1
      end
  | None => -1
  end.

Section registry.
(** [String.prototype.toLowerCase], the [blockchain] and [sign] options. *)
Context (toLowerCase : js_string -> js_string).
Context (blockchain : js_string).
Context (sign : account -> js_string -> js_string).

Definition getAccountByAddress (r : registry) (addr : js_string)
  : option account :=
  find (fun account =>
          bool_decide (toLowerCase (address account) = toLowerCase addr))
    (accounts r).

(** [accounts.push(create())], given what [create()] returned. *)
Definition createAddress (created : account) (r : registry) : registry :=
  Registry (accounts r ++ [created]) (accountsStatus r) (outbox r)
    (notices r).

Definition removeAddress (addr : js_string) (r : registry) : registry :=
  let account := getAccountByAddress r addr in
  if bool_decide (addr = []) then ElMessage_error (AddressNotFound11 addr) r
  else
    let r := emit (RemoveAddress blockchain addr) r in
    let r := accountsStatus_delete (toLowerCase addr) r in
    Registry (splice (indexOf (accounts r) account) 1 (accounts r))
      (accountsStatus r) (outbox r) (notices r).

Definition reconnectAddress (addr : js_string) (r : registry) : registry :=
  match getAccountByAddress r addr with
  | None => ElMessage_error (AddressNotFound12 addr) r
  | Some _ =>
      emit (AddAddress blockchain addr version)
        (accountsStatus_set addr AUTHORIZING r)
  end.

Definition reconnectAllAddresses (r : registry) : registry :=
  fold_left
    (fun r account =>
       emit (AddAddress blockchain (address account) version)
         (accountsStatus_set (address account) AUTHORIZING r))
    (accounts r) r.

(** One turn of the loop of the watcher of [accounts]. *)
Definition watch_step (r : registry) (account : account) : registry :=
  match accountsStatus r !! toLowerCase (address account) with
  | Some _ => r
  | None =>
      emit (AddAddress blockchain (address account) version)
        (accountsStatus_set (toLowerCase (address account)) AUTHORIZING r)
  end.

(** The watcher of [accounts]: it runs when the registry is set up and
    after every mutation of the list. *)
Definition accounts_watch (r : registry) : registry :=
  fold_left watch_step (accounts r) r.

Definition on_connect (r : registry) : registry := reconnectAllAddresses r.

Definition on_disconnect (r : registry) : registry :=
  Registry (accounts r) ∅ (outbox r) (notices r).

Definition on_addressAuthChallenge (message : challenge) (r : registry)
  : registry :=
  if negb (bool_decide (toLowerCase (payload_blockchain message)
                        = toLowerCase blockchain))
  then r
  else
    match getAccountByAddress r (payload_address message) with
    | Some account =>
        emit (Response (messageId message) true
                (Some (sign account (dataToSign message)))) r
    | None =>
        emit (Response (messageId message) false None)
          (ElMessage_error (AddressNotFound13 (payload_address message)) r)
    end.

Definition on_addressAuthChallengeFailed (addr : js_string) (r : registry)
  : registry :=
  accountsStatus_set (toLowerCase addr) UNAUTHORIZED r.

Definition on_addressAuthChallengeSuccess (addr : js_string) (r : registry)
  : registry :=
  accountsStatus_set (toLowerCase addr) ONLINE r.

(** Every key of the status map is a lower-cased string. *)
Definition keys_lower_cased (r : registry) : Prop :=
  forall key, is_Some (accountsStatus r !! key) -> toLowerCase key = key.

(** The address an announcement is for, lower-cased. *)
Definition announced (e : emitted) : js_string :=
  match e with
  | AddAddress _ addr _ | RemoveAddress _ addr => toLowerCase addr
  | Response _ _ _ => []
  end.

End registry.

(** [toLowerCase] on strings of ASCII characters, for the concrete
    registries below. *)
Definition ascii_toLowerCase (s : js_string) : js_string :=
  map (fun c => if (0x41 <=? c) && (c <=? 0x5A) then c + 0x20 else c) s.

(** A signer for the concrete registries below. *)
Definition sample_sign (a : account) (data : js_string) : js_string :=
  privateKey a ++ data.

End Registry.

(** ** The codecs of the stores *)

Section codecs.
Import WebCrypto Registry.
Context `{Primitives}.

(** The default [encode] and [decode] of [useReactiveEncryptedStorage]
    (lines 18-19), over [JSON.stringify] and [JSON.parse] on the values
    [T] that JSON carries, with the password at the time of the call. *)
Definition default_encode {T} (JSON_stringify : T -> js_string)
    (password : js_string) (data : T) : Rand js_string :=
  encryptData (JSON_stringify data) password.

Definition default_decode {T} (JSON_parse : js_string -> js_error + T)
    (password : js_string) (data : js_string) : js_error + T :=
  decrypted ← decryptData data password;
  JSON_parse decrypted.

(** The [encode] and [decode] of [useAccountsStorage] (lines 49-50): the
    list of the private keys goes through JSON, and [create] makes an
    account of each key read. *)
Definition accounts_encode (JSON_stringify : list js_string -> js_string)
    (password : js_string) (data : list account) : Rand js_string :=
  encryptData (JSON_stringify (map privateKey data)) password.

Definition accounts_decode
    (JSON_parse : js_string -> js_error + list js_string)
    (create : js_string -> account)
    (password : js_string) (data : js_string) : js_error + list account :=
  decrypted ← decryptData data password;
  keys ← JSON_parse decrypted;
  mret (map create keys).

End codecs.

(** ** [storagePassword] and [useLocalStorageRef] *)

Module Refs.

(** [String(value)], as [setItem] does to its argument, for a string or
    [null]. *)
Definition to_storage_string (value : option js_string) : js_string :=
  match value with
  | Some s => s
  | None => js "null"
  end.

(** Line 6: [ref(sessionStorage.getItem('storagePassword'))]. *)
Definition storagePassword_init (sessionStorage : gmap js_string js_string)
  : option js_string :=
  sessionStorage !! js "storagePassword".

(** [storagePassword.value = value], with the watcher of line 7, which
    runs when the value has changed: the cell and the session storage
    after the assignment. *)
Definition storagePassword_assign (value current : option js_string)
    (sessionStorage : gmap js_string js_string)
  : option js_string * gmap js_string js_string :=
  if bool_decide (value = current) then (current, sessionStorage)
  else (value,
        <[js "storagePassword" := to_storage_string value]> sessionStorage).

(** Lines 9-13, for string values: the value of the ref when it is made,
    and the local storage after [ref.value = value]. *)
Definition useLocalStorageRef (name defaultValue : js_string)
    (localStorage : gmap js_string js_string) : js_string :=
  if Storage.truthy (localStorage !! name)
  then default defaultValue (localStorage !! name)
  else defaultValue.

Definition useLocalStorageRef_assign (name value current : js_string)
    (localStorage : gmap js_string js_string) : gmap js_string js_string :=
  if bool_decide (value = current) then localStorage
  else <[name := value]> localStorage.

End Refs.

(** A stand-in for JSON on a list of one key, and an account factory,
    for the concrete stores below. *)
Definition sample_stringify (keys : list js_string) : js_string :=
  concat keys.
Definition sample_parse (s : js_string) : js_error + list js_string :=
  inr [s].
Definition sample_create (key : js_string) : Registry.account :=
  Registry.Account (js "0x" ++ key) key.

(* ================================================================== *)
(** * Properties *)
(* ================================================================== *)

(** ** Properties of the text codecs *)

Example encode_ascii : Text.encode (js "pw") = [x70; x77].
Proof. reflexivity. Qed.

Example encode_euro : Text.encode [0x20AC] = [xe2; x82; xac].
Proof. reflexivity. Qed.

Example encode_pair : Text.encode [0xD83D; 0xDE00] = [xf0; x9f; x98; x80].
Proof. reflexivity. Qed.

Example decode_pair : Text.decode [xf0; x9f; x98; x80] = [0xD83D; 0xDE00].
Proof. reflexivity. Qed.

Example decode_truncated : Text.decode [xe2; x82; x41] = [0xFFFD; 0x41].
Proof. reflexivity. Qed.

Example decode_overlong : Text.decode [xc0; x80] = [0xFFFD; 0xFFFD].
Proof. reflexivity. Qed.


Lemma byte_to_Z_range (b : byte) : 0 <= byte_to_Z b < 256.
Proof.
  unfold byte_to_Z. pose proof (Byte.to_N_bounded b). lia.
Qed.

Lemma Z_to_byte_to_Z (b : byte) : Z_to_byte (byte_to_Z b) = b.
Proof.
  unfold Z_to_byte. pose proof (byte_to_Z_range b) as Hb.
  rewrite Z.mod_small by lia. unfold byte_to_Z.
  rewrite N2Z.id. by rewrite Byte.of_to_N.
Qed.

Lemma byte_to_Z_to_byte (z : Z) : byte_to_Z (Z_to_byte z) = z mod 256.
Proof.
  unfold Z_to_byte, byte_to_Z.
  pose proof (Z.mod_pos_bound z 256 eq_refl) as Hz.
  destruct (Byte.of_N (Z.to_N (z mod 256))) as [b|] eqn:E.
  - apply Byte.to_of_N in E. rewrite E. lia.
  - apply Byte.of_N_None_iff in E. lia.
Qed.

Lemma fromCharCode_byte (b : byte) : Z_to_byte (fromCharCode b) = b.
Proof.
  unfold fromCharCode. pose proof (byte_to_Z_range b).
  rewrite Z.mod_small by lia. apply Z_to_byte_to_Z.
Qed.

Module TextFacts.
Import Text.

Ltac arith := Z.div_mod_to_equations; lia.

(** Decide the comparisons of a goal by linear arithmetic. *)
Ltac decide_tests :=
  repeat match goal with
    | |- context [?a <=? ?b] =>
        first [ rewrite (proj2 (Z.leb_le a b)) by lia
              | rewrite (proj2 (Z.leb_gt a b)) by lia ]
    | |- context [?a <? ?b] =>
        first [ rewrite (proj2 (Z.ltb_lt a b)) by lia
              | rewrite (proj2 (Z.ltb_ge a b)) by lia ]
    | |- context [?a =? ?b] =>
        first [ rewrite (proj2 (Z.eqb_eq a b)) by lia
              | rewrite (proj2 (Z.eqb_neq a b)) by lia ]
    end; cbn [andb orb negb].

(** One step of the decoder, by the shape of the state and the byte. *)
Lemma decode_lead_emit b cp rest :
  utf8_lead b = Emit cp ->
  utf8_decode_from utf8_initial (b :: rest)
  = cp :: utf8_decode_from utf8_initial rest.
Proof. intros H. cbn [utf8_decode_from]. by rewrite H. Qed.

Lemma decode_lead_continue b st rest :
  utf8_lead b = Continue st ->
  utf8_decode_from utf8_initial (b :: rest) = utf8_decode_from st rest.
Proof. intros H. cbn [utf8_decode_from]. by rewrite H. Qed.

Lemma decode_continuation_more cp seen needed lo hi b rest :
  needed <> 0 -> lo <= b <= hi -> seen + 1 <> needed ->
  utf8_decode_from (Utf8State cp seen needed lo hi) (b :: rest)
  = utf8_decode_from
      (Utf8State (cp * 0x40 + b mod 0x40) (seen + 1) needed 0x80 0xBF) rest.
Proof.
  intros Hn Hb Hs.
  cbn [utf8_decode_from bytes_needed lower_boundary upper_boundary
         code_point bytes_seen].
  by decide_tests.
Qed.

Lemma decode_continuation_last cp seen needed lo hi b rest :
  needed <> 0 -> lo <= b <= hi -> seen + 1 = needed ->
  utf8_decode_from (Utf8State cp seen needed lo hi) (b :: rest)
  = (cp * 0x40 + b mod 0x40) :: utf8_decode_from utf8_initial rest.
Proof.
  intros Hn Hb Hs.
  cbn [utf8_decode_from bytes_needed lower_boundary upper_boundary
         code_point bytes_seen].
  by decide_tests.
Qed.

Lemma continuation_mod r : 0 <= r < 0x40 -> (0x80 + r) mod 0x40 = r.
Proof. intros. arith. Qed.

Lemma decode_1 b rest :
  0 <= b < 0x80 ->
  utf8_decode_from utf8_initial (b :: rest)
  = b :: utf8_decode_from utf8_initial rest.
Proof.
  intros Hb. apply decode_lead_emit. unfold utf8_lead. by decide_tests.
Qed.

Lemma decode_2 q r rest :
  2 <= q < 0x20 -> 0 <= r < 0x40 ->
  utf8_decode_from utf8_initial (0xC0 + q :: 0x80 + r :: rest)
  = (q * 0x40 + r) :: utf8_decode_from utf8_initial rest.
Proof.
  intros Hq Hr.
  rewrite (decode_lead_continue _ (Utf8State q 0 1 0x80 0xBF)).
  - rewrite decode_continuation_last by lia.
    by rewrite continuation_mod.
  - unfold utf8_lead. decide_tests. do 2 f_equal. arith.
Qed.

Lemma decode_3 q r1 r0 rest :
  0 <= q < 0x10 -> 0 <= r1 < 0x40 -> 0 <= r0 < 0x40 ->
  (q = 0 -> 0x20 <= r1) -> (q = 0xD -> r1 < 0x20) ->
  utf8_decode_from utf8_initial (0xE0 + q :: 0x80 + r1 :: 0x80 + r0 :: rest)
  = ((q * 0x40 + r1) * 0x40 + r0) :: utf8_decode_from utf8_initial rest.
Proof.
  intros Hq Hr1 Hr0 Hlo Hhi.
  rewrite (decode_lead_continue _
             (Utf8State q 0 2 (if decide (q = 0) then 0xA0 else 0x80)
                        (if decide (q = 0xD) then 0x9F else 0xBF))).
  - rewrite decode_continuation_more by (repeat case_decide; lia).
    rewrite decode_continuation_last by lia.
    by rewrite !continuation_mod.
  - unfold utf8_lead. decide_tests.
    replace ((0xE0 + q) mod 0x10) with q by arith.
    repeat case_decide; by decide_tests.
Qed.

Lemma decode_4 q r2 r1 r0 rest :
  0 <= q <= 4 -> 0 <= r2 < 0x40 -> 0 <= r1 < 0x40 -> 0 <= r0 < 0x40 ->
  (q = 0 -> 0x10 <= r2) -> (q = 4 -> r2 < 0x10) ->
  utf8_decode_from utf8_initial
    (0xF0 + q :: 0x80 + r2 :: 0x80 + r1 :: 0x80 + r0 :: rest)
  = (((q * 0x40 + r2) * 0x40 + r1) * 0x40 + r0)
      :: utf8_decode_from utf8_initial rest.
Proof.
  intros Hq Hr2 Hr1 Hr0 Hlo Hhi.
  rewrite (decode_lead_continue _
             (Utf8State q 0 3 (if decide (q = 0) then 0x90 else 0x80)
                        (if decide (q = 4) then 0x8F else 0xBF))).
  - rewrite decode_continuation_more by (repeat case_decide; lia).
    rewrite decode_continuation_more by lia.
    rewrite decode_continuation_last by lia.
    by rewrite !continuation_mod.
  - unfold utf8_lead. decide_tests.
    replace ((0xF0 + q) mod 0x8) with q by arith.
    repeat case_decide; by decide_tests.
Qed.

Lemma utf8_decode_encode_scalar cp rest :
  scalar cp ->
  utf8_decode_from utf8_initial (utf8_encode_scalar cp ++ rest)
  = cp :: utf8_decode_from utf8_initial rest.
Proof.
  intros [Hr Hs]. unfold utf8_encode_scalar.
  destruct (cp <? 0x80) eqn:H1; [|destruct (cp <? 0x800) eqn:H2;
    [|destruct (cp <? 0x10000) eqn:H3]];
    rewrite ?Z.ltb_lt, ?Z.ltb_ge in *; cbn [app].
  - apply decode_1. lia.
  - rewrite decode_2 by arith. f_equal. arith.
  - rewrite decode_3 by arith. f_equal. arith.
  - rewrite decode_4 by arith. f_equal. arith.
Qed.

Lemma utf8_encode_scalar_bytes cp :
  scalar cp -> Forall (fun b => 0 <= b < 256) (utf8_encode_scalar cp).
Proof.
  intros [Hr Hs]. unfold utf8_encode_scalar.
  destruct (cp <? 0x80) eqn:H1; [|destruct (cp <? 0x800) eqn:H2;
    [|destruct (cp <? 0x10000) eqn:H3]];
    rewrite ?Z.ltb_lt, ?Z.ltb_ge in *;
    repeat constructor; arith.
Qed.

Lemma utf8_decode_encode cps :
  Forall scalar cps -> utf8_decode (utf8_encode cps) = cps.
Proof.
  unfold utf8_decode, utf8_encode.
  induction 1 as [|cp cps Hcp _ IH]; [done|].
  cbn [map concat]. rewrite utf8_decode_encode_scalar by done.
  by rewrite IH.
Qed.

Lemma utf8_encode_bytes cps :
  Forall scalar cps -> Forall (fun b => 0 <= b < 256) (utf8_encode cps).
Proof.
  unfold utf8_encode. induction 1 as [|cp cps Hcp _ IH]; [constructor|].
  cbn [map concat]. apply Forall_app. split; [|done].
  by apply utf8_encode_scalar_bytes.
Qed.

Lemma bytes_roundtrip (l : list Z) :
  Forall (fun b => 0 <= b < 256) l -> map byte_to_Z (map Z_to_byte l) = l.
Proof.
  induction 1 as [|b l Hb _ IH]; [done|].
  cbn [map]. rewrite byte_to_Z_to_byte, Z.mod_small by lia. by rewrite IH.
Qed.

Lemma pair_scalar c d :
  is_lead c = true -> is_trail d = true ->
  scalar (0x10000 + (c - 0xD800) * 0x400 + (d - 0xDC00))
  /\ utf16_units (0x10000 + (c - 0xD800) * 0x400 + (d - 0xDC00)) = [c; d].
Proof.
  unfold is_lead, is_trail, scalar, utf16_units.
  rewrite !andb_true_iff, !Z.leb_le. intros [? ?] [? ?].
  split; [lia|]. decide_tests. f_equal; [|f_equal]; arith.
Qed.

Lemma unit_scalar c :
  is_lead c = false -> is_trail c = false -> 0 <= c <= 0xFFFF ->
  scalar c /\ utf16_units c = [c].
Proof.
  unfold is_lead, is_trail, scalar, utf16_units.
  rewrite !andb_false_iff, !Z.leb_gt. intros Hl Ht Hc.
  split; [lia|]. by decide_tests.
Qed.

(** On a well-formed string the conversion to scalar values loses
    nothing. *)
Lemma well_formed_scalars_bounded n (s : js_string) :
  (length s <= n)%nat -> well_formed s = true ->
  Forall scalar (to_scalar_values s)
  /\ concat (map utf16_units (to_scalar_values s)) = s.
Proof.
  revert s. induction n as [|n IH]; intros s Hlen Hwf.
  { destruct s; [by split; [constructor|]|cbn in Hlen; lia]. }
  destruct s as [|c rest]; [by split; [constructor|]|].
  cbn [well_formed to_scalar_values] in *.
  destruct (is_lead c) eqn:Hlead.
  - destruct rest as [|d rest']; [done|].
    apply andb_true_iff in Hwf as [Htrail Hwf]. rewrite Htrail.
    destruct (pair_scalar c d Hlead Htrail) as [Hsc Hunits].
    destruct (IH rest') as [Hall Hcat]; [cbn in Hlen; lia|done|].
    split; [by constructor|].
    cbn [map concat]. rewrite Hunits, Hcat. done.
  - rewrite !andb_true_iff, !Z.leb_le, negb_true_iff in Hwf.
    destruct Hwf as [[[? ?] Htrail] Hwf]. rewrite Htrail.
    destruct (unit_scalar c Hlead Htrail) as [Hsc Hunits]; [lia|].
    destruct (IH rest) as [Hall Hcat]; [cbn in Hlen; lia|done|].
    split; [by constructor|].
    cbn [map concat]. rewrite Hunits, Hcat. done.
Qed.

Lemma well_formed_scalars (s : js_string) :
  well_formed s = true ->
  Forall scalar (to_scalar_values s)
  /\ concat (map utf16_units (to_scalar_values s)) = s.
Proof. by apply (well_formed_scalars_bounded (length s)). Qed.

(** Only a string that starts with U+FEFF has U+FEFF as its first
    scalar value. *)
Lemma strip_bom_scalars (s : js_string) :
  starts_with_bom s = false ->
  strip_bom (to_scalar_values s) = to_scalar_values s.
Proof.
  destruct s as [|c rest]; [done|]. cbn [starts_with_bom to_scalar_values].
  intros Hc. unfold BOM, REPLACEMENT in *.
  destruct (is_lead c) eqn:Hlead.
  - destruct rest as [|d rest']; [done|].
    destruct (is_trail d) eqn:Htrail; [|done].
    destruct (pair_scalar c d Hlead Htrail) as [_ Hunits].
    unfold strip_bom, utf16_units, BOM in *.
    case_match; [done|]. by decide_tests.
  - destruct (is_trail c); [done|]. unfold strip_bom, BOM. by rewrite Hc.
Qed.

(** Decoding what the encoder produced gives the string back, for
    well-formed strings that do not start with a byte order mark. *)
Lemma decode_encode (s : js_string) :
  well_formed s = true -> starts_with_bom s = false ->
  decode (encode s) = s.
Proof.
  intros Hwf Hbom. unfold decode, encode.
  destruct (well_formed_scalars s Hwf) as [Hall Hcat].
  rewrite bytes_roundtrip by by apply utf8_encode_bytes.
  rewrite utf8_decode_encode by done.
  by rewrite strip_bom_scalars.
Qed.

(** The two ways a string is changed by encoding and decoding. *)
Example decode_encode_bom : decode (encode [0xFEFF; 0x61]) = [0x61].
Proof. reflexivity. Qed.

Example decode_encode_lone_surrogate : decode (encode [0xD800]) = [0xFFFD].
Proof. reflexivity. Qed.

End TextFacts.


(** ** Properties of the key derivation *)

Import WebCrypto.

Section derivation_facts.
Context `{Primitives}.

Lemma importKey_password (passwordBuffer : bytes) :
  importKey FormatRaw passwordBuffer PBKDF2 false [UsageDeriveKey]
  = inr {| key_algorithm := PBKDF2; key_extractable := false;
           key_usages := [UsageDeriveKey]; key_handle := passwordBuffer |}.
Proof. reflexivity. Qed.





Context (Hhash : HashLawful).

Lemma hmac_length h (key msg : bytes) : length (hmac h key msg) = output_size h.
Proof. unfold hmac. apply digest_length, Hhash. Qed.

Lemma pbkdf2_rounds_length h (password u acc : bytes) n :
  length acc = output_size h ->
  length (pbkdf2_rounds h password u acc n) = output_size h.
Proof.
  revert u acc. induction n as [|n IH]; intros u acc Hacc; [done|].
  cbn [pbkdf2_rounds]. apply IH. unfold xor_bytes.
  rewrite length_zip_with, hmac_length. lia.
Qed.

Lemma pbkdf2_block_length h (password salt : bytes) c i :
  length (pbkdf2_block h password salt c i) = output_size h.
Proof. unfold pbkdf2_block. apply pbkdf2_rounds_length, hmac_length. Qed.

Lemma derived_key_length (password : js_string) (salt : bytes) :
  length (derived_key password salt) = 32%nat.
Proof.
  unfold derived_key, pbkdf2.
  change ((32 + output_size SHA_256 - 1) / output_size SHA_256)%nat
    with 1%nat.
  cbn [seq map concat]. rewrite app_nil_r, length_take, pbkdf2_block_length.
  reflexivity.
Qed.

Lemma deriveKey_ok (password : js_string) (salt : bytes) :
  deriveKey {| salt := salt; iterations := 1000; hash := SHA_256 |}
    {| key_algorithm := PBKDF2; key_extractable := false;
       key_usages := [UsageDeriveKey];
       key_handle := Text.encode password |}
    256 true [UsageEncrypt; UsageDecrypt]
  = inr {| key_algorithm := AES_GCM; key_extractable := true;
           key_usages := [UsageEncrypt; UsageDecrypt];
           key_handle := derived_key password salt |}.
Proof.
  pose proof (derived_key_length password salt) as Hlen.
  unfold deriveKey, importKey, derived_key in *.
  cbn [key_algorithm key_usages key_handle iterations WebCrypto.salt hash].
  change (Z.to_nat 1000) with 1000%nat.
  change (Z.to_nat (256 / 8)) with 32%nat.
  rewrite Hlen. reflexivity.
Qed.

(** Derivation succeeds on every password and every salt. *)
Lemma derive_ok (password : js_string) (salt : bytes) :
  derive password salt
  = inr {| key_algorithm := AES_GCM; key_extractable := true;
           key_usages := [UsageEncrypt; UsageDecrypt];
           key_handle := derived_key password salt |}.
Proof.
  unfold derive. rewrite importKey_password. apply deriveKey_ok.
Qed.

End derivation_facts.

(** ** Properties of [encryptData] and [decryptData] *)

Lemma Uint8Array_set_zeros (pre src : bytes) (k : nat) :
  Uint8Array_set (pre ++ Uint8Array_new (length src + k)) src (length pre)
  = inr (pre ++ src ++ Uint8Array_new k).
Proof.
  unfold Uint8Array_set, Uint8Array_new.
  rewrite length_app, length_replicate.
  rewrite (proj2 (Nat.ltb_ge _ _)) by lia.
  rewrite take_app_length, drop_app_ge by lia.
  rewrite drop_replicate. do 4 f_equal. lia.
Qed.

Lemma string_of_bytes_to_bytes (a : bytes) :
  map Z_to_byte (map fromCharCode a) = a.
Proof.
  induction a as [|b a IH]; [done|].
  cbn [map]. by rewrite fromCharCode_byte, IH.
Qed.

Lemma Rand_bind_random {B} (n : nat) (f : bytes -> Rand B) (rng : entropy) :
  (getRandomValues n ≫= f) rng
  = f (map (tape rng) (seq (cursor rng) n))
      (Entropy (tape rng) (cursor rng + n)).
Proof. reflexivity. Qed.

Lemma Rand_bind_lift {A B} (x : A) (f : A -> Rand B) (rng : entropy) :
  (lift (inr x) ≫= f) rng = f x rng.
Proof. reflexivity. Qed.

Lemma result_bind_inr {A B} (x : A) (f : A -> js_error + B) :
  (inr x ≫= f) = f x.
Proof. reflexivity. Qed.

Lemma slice_0_16 (a : bytes) : slice 0 16 a = take 16 a.
Proof. reflexivity. Qed.

Lemma slice_16_28 (a : bytes) : slice 16 28 a = take 12 (drop 16 a).
Proof. reflexivity. Qed.

Lemma slice_from_28 (a : bytes) : slice_from 28 a = drop 28 a.
Proof. reflexivity. Qed.

Section cipher_facts.
Context `{Primitives} (Hhash : HashLawful).

Lemma encrypt_with_derived (iv K data : bytes) :
  encrypt iv {| key_algorithm := AES_GCM; key_extractable := true;
                key_usages := [UsageEncrypt; UsageDecrypt];
                key_handle := K |} data
  = inr ((gcm_ae K iv data).1 ++ (gcm_ae K iv data).2).
Proof.
  unfold encrypt. cbn [key_handle]. by destruct (gcm_ae K iv data).
Qed.

Lemma decrypt_with_derived (iv K data : bytes) :
  decrypt iv {| key_algorithm := AES_GCM; key_extractable := true;
                key_usages := [UsageEncrypt; UsageDecrypt];
                key_handle := K |} data
  = if (length data <? 16)%nat then inl OperationError
    else match gcm_ad K iv (take (length data - 16) data)
                 (drop (length data - 16) data) with
         | Some P => inr P
         | None => inl OperationError
         end.
Proof. reflexivity. Qed.

Lemma sealed_eq (data password : js_string) (rng : entropy) :
  sealed data password rng
  = (gcm_ae (derived_key password (drawn_salt rng)) (drawn_iv rng)
       (Text.encode data)).1
    ++ (gcm_ae (derived_key password (drawn_salt rng)) (drawn_iv rng)
          (Text.encode data)).2.
Proof. unfold sealed. by destruct (gcm_ae _ _ _). Qed.

Lemma drawn_salt_length (rng : entropy) : length (drawn_salt rng) = 16%nat.
Proof. unfold drawn_salt. by rewrite length_map, length_seq. Qed.

Lemma drawn_iv_length (rng : entropy) : length (drawn_iv rng) = 12%nat.
Proof. unfold drawn_iv. by rewrite length_map, length_seq. Qed.

Lemma Rand_bind_salt {B} (f : bytes -> Rand B) (rng : entropy) :
  (getRandomValues 16 ≫= f) rng
  = f (drawn_salt rng) (Entropy (tape rng) (cursor rng + 16)).
Proof. reflexivity. Qed.

Lemma Rand_bind_iv {B} (f : bytes -> Rand B) (rng : entropy) :
  (getRandomValues 12 ≫= f) (Entropy (tape rng) (cursor rng + 16))
  = f (drawn_iv rng) (Entropy (tape rng) (cursor rng + 16 + 12)).
Proof. reflexivity. Qed.

Lemma encryptData_eq (data password : js_string) (rng : entropy) :
  encryptData data password rng
  = (inr (map fromCharCode
            (drawn_salt rng ++ drawn_iv rng ++ sealed data password rng)),
     Entropy (tape rng) (cursor rng + 28)).
Proof.
  unfold encryptData.
  rewrite Rand_bind_salt, importKey_password, Rand_bind_lift.
  rewrite (deriveKey_ok Hhash), Rand_bind_lift, Rand_bind_iv.
  rewrite encrypt_with_derived, <- sealed_eq.
  set (ct := sealed data password rng).
  pose proof (drawn_salt_length rng) as Hs.
  pose proof (drawn_iv_length rng) as Hi.
  pose proof (Uint8Array_set_zeros [] (drawn_salt rng)
                (length (drawn_iv rng) + length ct)) as E1.
  pose proof (Uint8Array_set_zeros (drawn_salt rng) (drawn_iv rng)
                (length ct)) as E2.
  pose proof (Uint8Array_set_zeros (drawn_salt rng ++ drawn_iv rng) ct 0)
    as E3.
  cbn [app length] in E1.
  rewrite Nat.add_assoc in E1.
  rewrite Rand_bind_lift, E1, Rand_bind_lift, E2, Rand_bind_lift.
  rewrite length_app, Nat.add_0_r, <- app_assoc in E3.
  rewrite E3, Rand_bind_lift. unfold Uint8Array_new, mret, Rand_ret.
  cbn [replicate]. rewrite app_nil_r, <- app_assoc.
  do 2 f_equal. lia.
Qed.

(** [decryptData] on any string: the slices it takes and what it does
    with them. *)
Lemma decryptData_eq (data password : js_string) :
  decryptData data password
  = if (length (drop 28 (map Z_to_byte data)) <? 16)%nat
    then inl OperationError
    else match gcm_ad (derived_key password (take 16 (map Z_to_byte data)))
                 (take 12 (drop 16 (map Z_to_byte data)))
                 (take (length (drop 28 (map Z_to_byte data)) - 16)
                    (drop 28 (map Z_to_byte data)))
                 (drop (length (drop 28 (map Z_to_byte data)) - 16)
                    (drop 28 (map Z_to_byte data))) with
         | Some P => inr (Text.decode P)
         | None => inl OperationError
         end.
Proof.
  unfold decryptData.
  rewrite importKey_password, result_bind_inr.
  rewrite (deriveKey_ok Hhash), result_bind_inr.
  rewrite decrypt_with_derived, slice_0_16, slice_16_28, slice_from_28.
  destruct (length (drop 28 (map Z_to_byte data)) <? 16)%nat; [done|].
  by destruct (gcm_ad _ _ _ _).
Qed.

(** [decryptData] on a blob made by [encryptData], under any password. *)
Lemma decryptData_sealed (Hgcm : GcmLawful) (data W1 W2 : js_string)
    (rng : entropy) :
  decryptData
    (map fromCharCode (drawn_salt rng ++ drawn_iv rng ++ sealed data W1 rng))
    W2
  = match gcm_ad (derived_key W2 (drawn_salt rng)) (drawn_iv rng)
            (gcm_ae (derived_key W1 (drawn_salt rng)) (drawn_iv rng)
               (Text.encode data)).1
            (gcm_ae (derived_key W1 (drawn_salt rng)) (drawn_iv rng)
               (Text.encode data)).2 with
    | Some P => inr (Text.decode P)
    | None => inl OperationError
    end.
Proof.
  rewrite decryptData_eq, string_of_bytes_to_bytes.
  pose proof (drawn_salt_length rng) as Hs.
  pose proof (drawn_iv_length rng) as Hi.
  rewrite sealed_eq.
  set (C := (gcm_ae _ _ _).1). set (T := (gcm_ae _ _ _).2).
  assert (HT : length T = 16%nat) by apply gcm_tag_length, Hgcm.
  rewrite take_app_length' by done.
  rewrite (drop_app_length' _ _ 16) by done.
  rewrite take_app_length' by done.
  rewrite (app_assoc (drawn_salt rng)).
  rewrite (drop_app_length' _ _ 28) by (rewrite length_app; lia).
  rewrite length_app, HT.
  rewrite (proj2 (Nat.ltb_ge _ _)) by lia.
  replace (length C + 16 - 16)%nat with (length C) by lia.
  by rewrite take_app_length, drop_app_length.
Qed.

End cipher_facts.

(** The stand-in primitives obey the laws. *)
Lemma toy_hash_lawful : HashLawful (H := Toy.primitives).
Proof.
  split. intros h m. cbn [digest Toy.primitives]. unfold Toy.toy_digest.
  by rewrite length_map, length_seq.
Qed.

Lemma Z_to_byte_mod (x y : Z) : x mod 256 = y mod 256 -> Z_to_byte x = Z_to_byte y.
Proof. unfold Z_to_byte. by intros ->. Qed.

Lemma toy_gcm_lawful : GcmLawful (H := Toy.primitives).
Proof.
  split; intros K IV P; cbn [gcm_ae gcm_ad Toy.primitives]; unfold Toy.toy_ae.
  - cbn [snd]. unfold Toy.toy_tag. by rewrite length_map, length_seq.
  - cbn [fst snd]. unfold Toy.toy_ad. rewrite decide_True by done.
    f_equal. rewrite map_map. rewrite <- (map_id P) at 2.
    apply map_ext. intros b. rewrite byte_to_Z_to_byte.
    rewrite <- (Z_to_byte_to_Z b) at 2. apply Z_to_byte_mod.
    rewrite Zminus_mod_idemp_l. f_equal. lia.
Qed.

(** The derivation steps of [encryptData] and of [decryptData] are
    [derive]. *)
Lemma encryptData_derives `{Primitives} (data password : js_string)
    (rng : entropy) :
  encryptData data password rng
  = (salt ← getRandomValues 16;
     derivedKey ← lift (derive password salt);
     iv ← getRandomValues 12;
     encryptedData ← lift (encrypt iv derivedKey (Text.encode data));
     combinedArray ← lift (Uint8Array_set
                             (Uint8Array_new
                                (length salt + length iv + length encryptedData))
                             salt 0);
     combinedArray ← lift (Uint8Array_set combinedArray iv (length salt));
     combinedArray ← lift (Uint8Array_set combinedArray encryptedData
                             (length salt + length iv));
     mret (map fromCharCode combinedArray)) rng.
Proof.
  unfold encryptData, derive.
  rewrite !Rand_bind_salt, !importKey_password, Rand_bind_lift.
  by rewrite result_bind_inr.
Qed.

Lemma decryptData_derives `{Primitives} (data password : js_string) :
  decryptData data password
  = (derivedKey ← derive password (slice 0 16 (map Z_to_byte data));
     decryptedData ← decrypt (slice 16 28 (map Z_to_byte data)) derivedKey
                       (slice_from 28 (map Z_to_byte data));
     mret (Text.decode decryptedData)).
Proof.
  unfold decryptData, derive.
  by rewrite !importKey_password, !result_bind_inr.
Qed.

(** ** The claims about the cipher *)

Section cipher_claims.
Context `{Primitives} (Hhash : HashLawful).

Lemma encryptData_blob (data password : js_string) (rng : entropy) :
  (encryptData data password rng).1
  = inr (map fromCharCode
           (drawn_salt rng ++ drawn_iv rng ++ sealed data password rng)).
Proof. by rewrite (encryptData_eq Hhash). Qed.

(** Decrypting under the password of the encryption gives the decoding
    of the encoding of the plaintext. *)
Lemma decrypt_encrypt_text (Hgcm : GcmLawful) (P W : js_string)
    (rng : entropy) :
  exists blob,
    (encryptData P W rng).1 = inr blob
    /\ decryptData blob W = inr (Text.decode (Text.encode P)).
Proof.
  eexists. split; [apply encryptData_blob|].
  rewrite (decryptData_sealed Hhash Hgcm). by rewrite (gcm_ad_ae Hgcm).
Qed.


(** C1 (amended). For every plaintext that is a well-formed string (no
    unpaired surrogate) and does not start with U+FEFF, and for every
    password, [encryptData] returns a blob and [decryptData] of that blob
    under the same password returns the plaintext. *)
Theorem decrypt_encrypt_roundtrip (Hgcm : GcmLawful) (P W : js_string)
    (rng : entropy) :
  Text.well_formed P = true ->
  Text.starts_with_bom P = false ->
  exists blob,
    (encryptData P W rng).1 = inr blob /\ decryptData blob W = inr P.
Proof.
  intros Hwf Hbom.
  destruct (decrypt_encrypt_text Hgcm P W rng) as (blob & Henc & Hdec).
  exists blob. split; [done|].
  by rewrite Hdec, TextFacts.decode_encode.
Qed.

(** C2. [encryptData] draws 16 bytes of salt and then 12 bytes of nonce
    from the random source, at positions never read before and leaving
    the source 28 bytes further; the key is PBKDF2 (HMAC-SHA-256, 1000
    iterations, 32 bytes) of the encoded password and that salt; and the
    blob is the salt, the nonce, and the ciphertext with its tag, in that
    order, one code unit per byte: its first 16 code units are the salt
    and its next 12 the nonce. *)
Theorem encryptData_layout (data password : js_string) (rng : entropy) :
  exists (salt iv key ct : bytes) (blob : js_string),
    encryptData data password rng
    = (inr blob, Entropy (tape rng) (cursor rng + 28))
    /\ salt = map (tape rng) (seq (cursor rng) 16)
    /\ iv = map (tape rng) (seq (cursor rng + 16) 12)
    /\ length salt = 16%nat /\ length iv = 12%nat
    /\ key = pbkdf2 SHA_256 (Text.encode password) salt 1000 32
    /\ ct = (gcm_ae key iv (Text.encode data)).1
            ++ (gcm_ae key iv (Text.encode data)).2
    /\ blob = map fromCharCode (salt ++ iv ++ ct)
    /\ take 16 blob = map fromCharCode salt
    /\ take 12 (drop 16 blob) = map fromCharCode iv
    /\ drop 28 blob = map fromCharCode ct.
Proof.
  exists (drawn_salt rng), (drawn_iv rng),
    (derived_key password (drawn_salt rng)), (sealed data password rng).
  eexists. split; [apply (encryptData_eq Hhash)|].
  pose proof (drawn_salt_length rng) as Hs.
  pose proof (drawn_iv_length rng) as Hi.
  split_and!; try done. apply sealed_eq.
Qed.

(** C4 (amended). Every blob shorter than 28 code units is rejected,
    under every password, with the [OperationError] of
    [crypto.subtle.decrypt]: the error of a tag that does not verify. *)
Theorem decryptData_short_blob (data password : js_string) :
  (length data < 28)%nat ->
  decryptData data password = inl OperationError.
Proof.
  intros Hlen. rewrite (decryptData_eq Hhash).
  rewrite length_drop, length_map.
  by rewrite (proj2 (Nat.ltb_lt _ _)) by lia.
Qed.


(** C6 (amended). Key derivation never fails: for every password, the
    empty one included, and every salt, of any length, it is the AES-GCM
    key whose material is PBKDF2 with HMAC-SHA-256, 1000 iterations and
    32 bytes of output, of the encoded password and the salt; it depends
    on nothing else. *)
Theorem derive_total (password : js_string) (salt : bytes) :
  derive password salt
  = inr {| key_algorithm := AES_GCM; key_extractable := true;
           key_usages := [UsageEncrypt; UsageDecrypt];
           key_handle :=
             pbkdf2 SHA_256 (Text.encode password) salt 1000 32 |}
  /\ length (pbkdf2 SHA_256 (Text.encode password) salt 1000 32) = 32%nat.
Proof.
  split; [apply (derive_ok Hhash)|apply (derived_key_length Hhash)].
Qed.

End cipher_claims.

(** C1 as stated fails: a plaintext that starts with U+FEFF comes back
    without it. *)
Lemma roundtrip_drops_byte_order_mark :
  exists blob,
    (encryptData (H := Toy.primitives) [0xFEFF; 0x61] (js "pw")
       Toy.counting).1 = inr blob
    /\ decryptData (H := Toy.primitives) blob (js "pw") = inr [0x61]
    /\ [0x61] <> [0xFEFF; 0x61].
Proof.
  destruct (decrypt_encrypt_text toy_hash_lawful toy_gcm_lawful
              [0xFEFF; 0x61] (js "pw") Toy.counting)
    as (blob & Henc & Hdec).
  exists blob. by repeat split.
Qed.

(** The round trip of "hi" under "pw". *)
Lemma decrypt_encrypt_roundtrip_witness :
  Text.well_formed (js "hi") = true
  /\ Text.starts_with_bom (js "hi") = false
  /\ exists blob,
      (encryptData (H := Toy.primitives) (js "hi") (js "pw")
         Toy.counting).1 = inr blob
      /\ decryptData (H := Toy.primitives) blob (js "pw")
         = inr (js "hi").
Proof.
  split; [reflexivity|]. split; [reflexivity|].
  apply (decrypt_encrypt_roundtrip toy_hash_lawful toy_gcm_lawful);
    reflexivity.
Defined.

(** The layout of the blob of "hi" under "pw". *)
Lemma encryptData_layout_witness :
  exists (salt iv key ct : bytes) (blob : js_string),
    encryptData (H := Toy.primitives) (js "hi") (js "pw") Toy.counting
    = (inr blob, Entropy (tape Toy.counting) (cursor Toy.counting + 28))
    /\ salt = map (tape Toy.counting) (seq (cursor Toy.counting) 16)
    /\ iv = map (tape Toy.counting) (seq (cursor Toy.counting + 16) 12)
    /\ length salt = 16%nat /\ length iv = 12%nat
    /\ key = pbkdf2 SHA_256 (Text.encode (js "pw")) salt 1000 32
    /\ ct = (gcm_ae key iv (Text.encode (js "hi"))).1
            ++ (gcm_ae key iv (Text.encode (js "hi"))).2
    /\ blob = map fromCharCode (salt ++ iv ++ ct)
    /\ take 16 blob = map fromCharCode salt
    /\ take 12 (drop 16 blob) = map fromCharCode iv
    /\ drop 28 blob = map fromCharCode ct.
Proof. apply (encryptData_layout toy_hash_lawful). Defined.

(** C4 as stated fails: the error of a short blob is the error that
    [crypto.subtle.decrypt] gives for a tag that does not verify, not an
    error of its own. *)
Lemma short_blob_error_is_authentication_error :
  decryptData (H := Toy.primitives) [1; 2; 3] (js "pw")
  = inl OperationError
  /\ gcm_ad (Primitives := Toy.primitives) (replicate 32 x00)
       (replicate 12 x00) [x68; x69] (replicate 16 x00) = None
  /\ decrypt (H := Toy.primitives) (replicate 12 x00)
       {| key_algorithm := AES_GCM; key_extractable := true;
          key_usages := [UsageEncrypt; UsageDecrypt];
          key_handle := replicate 32 x00 |}
       ([x68; x69] ++ replicate 16 x00)
     = inl OperationError.
Proof.
  assert (Hshort : decryptData (H := Toy.primitives) [1; 2; 3] (js "pw")
                   = inl OperationError).
  { rewrite (decryptData_eq toy_hash_lawful). reflexivity. }
  split; [done|]. split; reflexivity.
Qed.

(** A blob of three code units. *)
Lemma decryptData_short_blob_witness :
  (length [1; 2; 3] < 28)%nat
  /\ decryptData (H := Toy.primitives) [1; 2; 3] (js "pw")
     = inl OperationError.
Proof.
  split; [cbn; lia|].
  apply (decryptData_short_blob toy_hash_lawful). cbn. lia.
Defined.






(** C6 as stated fails: derivation succeeds on the empty password and
    on a salt of three bytes. *)
Lemma derive_accepts_empty_password_and_short_salt :
  (exists key, derive (H := Toy.primitives) [] (replicate 16 x00) = inr key)
  /\ (exists key, derive (H := Toy.primitives) (js "pw") [x01; x02; x03]
                  = inr key)
  /\ exists blob,
      (encryptData (H := Toy.primitives) (js "hi") [] Toy.counting).1
      = inr blob.
Proof.
  split; [|split]; eexists.
  - apply (derive_ok toy_hash_lawful).
  - apply (derive_ok toy_hash_lawful).
  - apply (encryptData_blob toy_hash_lawful).
Qed.

(** Derivation from the empty password and a salt of three bytes. *)
Lemma derive_total_witness :
  derive (H := Toy.primitives) [] [x01; x02; x03]
  = inr {| key_algorithm := AES_GCM; key_extractable := true;
           key_usages := [UsageEncrypt; UsageDecrypt];
           key_handle :=
             pbkdf2 SHA_256 (Text.encode []) [x01; x02; x03] 1000 32 |}
  /\ length (pbkdf2 SHA_256 (Text.encode []) [x01; x02; x03] 1000 32)
     = 32%nat.
Proof. apply (derive_total toy_hash_lawful). Defined.

(** ** Properties of the account registry *)

Import Registry.

Lemma splice_last {A} (l : list A) : splice (-1) 1 l = removelast l.
Proof.
  unfold splice. cbn [Z.ltb Z.compare].
  destruct l as [|x l] using rev_ind; [done|].
  rewrite removelast_last, length_app. cbn [length].
  replace (Z.max (Z.of_nat (length l + 1) + -1) 0) with (Z.of_nat (length l))
    by lia.
  replace (Z.min (Z.max 1 0) (Z.of_nat (length l + 1) - Z.of_nat (length l)))
    with 1 by lia.
  rewrite Nat2Z.id, take_app_length.
  replace (Z.to_nat (Z.of_nat (length l) + 1)) with (length (l ++ [x]))
    by (rewrite length_app; cbn; lia).
  by rewrite drop_all, app_nil_r.
Qed.

Section registry_facts.
Context (toLowerCase : js_string -> js_string).
Context (blockchain : js_string).
Context (sign : account -> js_string -> js_string).

Local Abbreviation step := (watch_step toLowerCase blockchain).
Local Abbreviation key a := (toLowerCase (address a)).

(** What [removeAddress] does with a non-empty address that no account
    has: it tells the peer, deletes the status entry of the address, and
    removes the last account of the list. *)
Lemma removeAddress_absent (addr : js_string) (r : registry) :
  addr <> [] ->
  getAccountByAddress toLowerCase r addr = None ->
  removeAddress toLowerCase blockchain addr r
  = Registry (removelast (accounts r))
      (delete (toLowerCase addr) (accountsStatus r))
      (outbox r ++ [RemoveAddress blockchain addr]) (notices r).
Proof.
  intros Hne Hnone. unfold removeAddress.
  rewrite bool_decide_false by done. rewrite Hnone.
  cbn [indexOf emit accountsStatus_delete accounts accountsStatus outbox
         notices].
  by rewrite splice_last.
Qed.

(** [reconnectAddress], next to it, does check the account. *)
Lemma reconnectAddress_absent (addr : js_string) (r : registry) :
  getAccountByAddress toLowerCase r addr = None ->
  reconnectAddress toLowerCase blockchain addr r
  = Registry (accounts r) (accountsStatus r) (outbox r)
      (notices r ++ [AddressNotFound12 addr]).
Proof. intros Hnone. unfold reconnectAddress. by rewrite Hnone. Qed.

(** The watcher changes neither the list nor what the user was shown. *)
Lemma watch_fold_frame (l : list account) (r : registry) :
  accounts (fold_left step l r) = accounts r
  /\ notices (fold_left step l r) = notices r.
Proof.
  revert r. induction l as [|b l IH]; intros r; [done|].
  cbn [fold_left]. destruct (IH (step r b)) as [-> ->].
  unfold watch_step. by destruct (accountsStatus r !! key b).
Qed.

Lemma watch_step_keeps (r : registry) (b : account) k s :
  accountsStatus r !! k = Some s -> accountsStatus (step r b) !! k = Some s.
Proof.
  intros Hk. unfold watch_step.
  destruct (accountsStatus r !! key b) eqn:Hb; [done|].
  cbn. rewrite lookup_insert_ne; [done|]. intros E. congruence.
Qed.

Lemma watch_fold_keeps (l : list account) (r : registry) k s :
  accountsStatus r !! k = Some s ->
  accountsStatus (fold_left step l r) !! k = Some s.
Proof.
  revert r. induction l as [|b l IH]; intros r Hk; [done|].
  cbn [fold_left]. by apply IH, watch_step_keeps.
Qed.

Lemma watch_step_marks (r : registry) (b : account) :
  accountsStatus r !! key b = None ->
  accountsStatus (step r b) !! key b = Some AUTHORIZING.
Proof.
  intros Hb. unfold watch_step. rewrite Hb. cbn. by rewrite lookup_insert_eq.
Qed.

Lemma watch_step_other (r : registry) (b : account) k :
  key b <> k -> accountsStatus (step r b) !! k = accountsStatus r !! k.
Proof.
  intros Hne. unfold watch_step.
  destruct (accountsStatus r !! key b); [done|].
  cbn. by rewrite lookup_insert_ne.
Qed.

Lemma watch_fold_marks (l : list account) (r : registry) (a : account) :
  a ∈ l -> accountsStatus r !! key a = None ->
  accountsStatus (fold_left step l r) !! key a = Some AUTHORIZING.
Proof.
  revert r. induction l as [|b l IH]; intros r Hin Hnone.
  { by apply elem_of_nil in Hin. }
  cbn [fold_left]. destruct (decide (key b = key a)) as [E|Hne].
  - apply watch_fold_keeps. rewrite <- E. apply watch_step_marks.
    by rewrite E.
  - apply elem_of_cons in Hin as [->|Hin]; [done|].
    apply IH; [done|]. by rewrite watch_step_other.
Qed.

Lemma watch_fold_other (l : list account) (r : registry) k :
  (forall a, a ∈ l -> key a <> k) ->
  accountsStatus (fold_left step l r) !! k = accountsStatus r !! k.
Proof.
  revert r. induction l as [|b l IH]; intros r Hl; [done|].
  cbn [fold_left]. rewrite IH.
  - apply watch_step_other, Hl, elem_of_cons. by left.
  - intros a Ha. apply Hl, elem_of_cons. by right.
Qed.

(** What the watcher emits: one announcement for each lower-cased
    address of the list that had no status entry, and nothing else. *)
Lemma watch_fold_outbox (l : list account) (r : registry) :
  exists new,
    outbox (fold_left step l r) = outbox r ++ new
    /\ (forall e, e ∈ new ->
          exists a, a ∈ l /\ accountsStatus r !! key a = None
                    /\ e = AddAddress blockchain (address a) 2)
    /\ (forall a, a ∈ l -> accountsStatus r !! key a = None ->
          exists a', a' ∈ l /\ key a' = key a
                     /\ AddAddress blockchain (address a') 2 ∈ new)
    /\ NoDup (map (announced toLowerCase) new).
Proof.
  revert r. induction l as [|b l IH]; intros r.
  { exists []. rewrite app_nil_r. split_and!; [done| | |constructor].
    - intros e He. by apply elem_of_nil in He.
    - intros a Ha. by apply elem_of_nil in Ha. }
  cbn [fold_left].
  destruct (IH (step r b)) as (new & Hout & Hsound & Hcomplete & Hnodup).
  destruct (accountsStatus r !! key b) as [s|] eqn:Hb.
  - (* [b] has an entry: the turn does nothing *)
    assert (Hstep : step r b = r) by (unfold watch_step; by rewrite Hb).
    rewrite Hstep in *. exists new. split_and!; [done| |  |done].
    + intros e He. destruct (Hsound e He) as (a & Ha & Hnone & ->).
      exists a. split_and!; [|done..]. apply elem_of_cons. by right.
    + intros a Ha Hnone. apply elem_of_cons in Ha as [->|Ha]; [congruence|].
      destruct (Hcomplete a Ha Hnone) as (a' & Ha' & Hkey & Hin).
      exists a'. split_and!; [|done..]. apply elem_of_cons. by right.
  - (* [b] has none: it is marked and announced *)
    assert (Hstep : outbox (step r b)
                    = outbox r ++ [AddAddress blockchain (address b) 2])
      by (unfold watch_step; by rewrite Hb).
    exists (AddAddress blockchain (address b) 2 :: new).
    split_and!.
    + rewrite Hout, Hstep, <- app_assoc. done.
    + intros e He. apply elem_of_cons in He as [->|He].
      * exists b. split_and!; [|done..]. apply elem_of_cons. by left.
      * destruct (Hsound e He) as (a & Ha & Hnone & ->).
        exists a. split_and!; [apply elem_of_cons; by right| |done].
        destruct (decide (key b = key a)) as [E|Hne].
        -- rewrite <- E, watch_step_marks in Hnone; done.
        -- by rewrite watch_step_other in Hnone.
    + intros a Ha Hnone. destruct (decide (key b = key a)) as [E|Hne].
      * exists b. split_and!; [| done |]; apply elem_of_cons; by left.
      * apply elem_of_cons in Ha as [->|Ha]; [done|].
        destruct (Hcomplete a Ha) as (a' & Ha' & Hkey & Hin).
        { by rewrite watch_step_other. }
        exists a'. split_and!; [|done|]; apply elem_of_cons; by right.
    + cbn [map announced]. constructor; [|done].
      intros Hin. apply list_elem_of_fmap in Hin as (e & Hkey & He).
      destruct (Hsound e He) as (a & Ha & Hnone & ->).
      cbn [announced] in Hkey.
      rewrite <- Hkey, watch_step_marks in Hnone; done.
Qed.

(** The operations that lower-case the address they set keep the keys
    of the status map lower-cased. *)
Section keys.
Context (Hidem : forall s, toLowerCase (toLowerCase s) = toLowerCase s).

Lemma set_lower_keeps_keys (addr : js_string) (st : status) (r : registry) :
  keys_lower_cased toLowerCase r ->
  keys_lower_cased toLowerCase (accountsStatus_set (toLowerCase addr) st r).
Proof.
  intros Hr k Hk. cbn in Hk.
  destruct (decide (toLowerCase addr = k)) as [<-|Hne]; [apply Hidem|].
  rewrite lookup_insert_ne in Hk by done. by apply Hr.
Qed.

Lemma challenge_failed_keeps_keys (addr : js_string) (r : registry) :
  keys_lower_cased toLowerCase r ->
  keys_lower_cased toLowerCase
    (on_addressAuthChallengeFailed toLowerCase addr r).
Proof. apply set_lower_keeps_keys. Qed.

Lemma challenge_success_keeps_keys (addr : js_string) (r : registry) :
  keys_lower_cased toLowerCase r ->
  keys_lower_cased toLowerCase
    (on_addressAuthChallengeSuccess toLowerCase addr r).
Proof. apply set_lower_keeps_keys. Qed.

Lemma watch_keeps_keys (r : registry) :
  keys_lower_cased toLowerCase r ->
  keys_lower_cased toLowerCase (accounts_watch toLowerCase blockchain r).
Proof.
  unfold accounts_watch. generalize (accounts r) as l. intros l. revert r.
  induction l as [|b l IH]; intros r Hr; [done|].
  cbn [fold_left]. apply IH. unfold watch_step.
  destruct (accountsStatus r !! key b); [done|].
  intros k Hk. by apply (set_lower_keeps_keys (address b) AUTHORIZING r).
Qed.

Lemma removeAddress_keeps_keys (addr : js_string) (r : registry) :
  keys_lower_cased toLowerCase r ->
  keys_lower_cased toLowerCase (removeAddress toLowerCase blockchain addr r).
Proof.
  intros Hr k. unfold removeAddress. case_bool_decide; [apply Hr|].
  cbn. intros Hk. apply Hr.
  destruct (decide (toLowerCase addr = k)) as [<-|Hne].
  - rewrite lookup_delete_eq in Hk. by destruct Hk.
  - by rewrite lookup_delete_ne in Hk.
Qed.

Lemma disconnect_keeps_keys (r : registry) :
  keys_lower_cased toLowerCase (on_disconnect r).
Proof. intros k Hk. cbn in Hk. rewrite lookup_empty in Hk. by destruct Hk. Qed.

End keys.

Lemma same_key_same_account (l : list account) (a a' : account) :
  NoDup (map (fun b => key b) l) -> a ∈ l -> a' ∈ l -> key a' = key a ->
  a' = a.
Proof.
  induction l as [|b l IH]; intros Hnd Ha Ha' Hkey.
  { by apply elem_of_nil in Ha. }
  cbn [map] in Hnd. apply NoDup_cons in Hnd as [Hb Hnd].
  apply elem_of_cons in Ha as [->|Ha]; apply elem_of_cons in Ha' as [->|Ha'].
  - done.
  - exfalso. apply Hb. rewrite <- Hkey.
    by apply (list_elem_of_fmap_2 (fun b => key b)).
  - exfalso. apply Hb. rewrite Hkey.
    by apply (list_elem_of_fmap_2 (fun b => key b)).
  - by apply IH.
Qed.

(** C9. When the watcher of the account list has run: every account of
    the list without a status entry is marked AUTHORIZING, and for its
    lower-cased address one [addAddress] event, with the blockchain, the
    address of such an account and version 2, was emitted (the event of
    the account itself when no two accounts of the list have the same
    lower-cased address); entries that existed are as they were, and no
    account with an entry was announced; the list is unchanged. *)
Theorem accounts_watch_announces_new (r : registry) :
  let r' := accounts_watch toLowerCase blockchain r in
  accounts r' = accounts r
  /\ (forall a, a ∈ accounts r -> accountsStatus r !! key a = None ->
        accountsStatus r' !! key a = Some AUTHORIZING)
  /\ (forall k s, accountsStatus r !! k = Some s ->
        accountsStatus r' !! k = Some s)
  /\ exists new,
      outbox r' = outbox r ++ new
      /\ (forall a, a ∈ accounts r -> accountsStatus r !! key a = None ->
            exists a', a' ∈ accounts r /\ key a' = key a
                       /\ AddAddress blockchain (address a') version ∈ new)
      /\ (NoDup (map (fun b => key b) (accounts r)) ->
          forall a, a ∈ accounts r -> accountsStatus r !! key a = None ->
            AddAddress blockchain (address a) version ∈ new)
      /\ (forall e, e ∈ new ->
            exists a, a ∈ accounts r /\ accountsStatus r !! key a = None
                      /\ e = AddAddress blockchain (address a) 2)
      /\ (forall a, a ∈ accounts r -> is_Some (accountsStatus r !! key a) ->
            forall e, e ∈ new -> announced toLowerCase e <> key a)
      /\ NoDup (map (announced toLowerCase) new).
Proof.
  unfold accounts_watch. cbn zeta.
  destruct (watch_fold_outbox (accounts r) r)
    as (new & Hout & Hsound & Hcomplete & Hnodup).
  split_and!.
  - apply watch_fold_frame.
  - intros a Ha Hnone. by apply watch_fold_marks.
  - intros k s Hk. by apply watch_fold_keeps.
  - exists new. split_and!; [done..| | | |done].
    + intros Hnd a Ha Hnone.
      destruct (Hcomplete a Ha Hnone) as (a' & Ha' & Hkey & Hin).
      by rewrite <- (same_key_same_account (accounts r) a a').
    + done.
    + intros a Ha [s Hs] e He Hkey.
      destruct (Hsound e He) as (a' & Ha' & Hnone & ->).
      cbn [announced] in Hkey. congruence.
Qed.

(** C10. An [addressAuthChallenge] for another blockchain, compared
    without regard to case, changes nothing: no event is emitted, and
    the list, the status map and what the user was shown are as they
    were. *)
Theorem challenge_for_other_blockchain_ignored (message : challenge)
    (r : registry) :
  toLowerCase (payload_blockchain message) <> toLowerCase blockchain ->
  on_addressAuthChallenge toLowerCase blockchain sign message r = r.
Proof.
  intros Hne. unfold on_addressAuthChallenge.
  by rewrite bool_decide_false by done.
Qed.

End registry_facts.

(** C3, on the code: [removeAddress] with an address that no account
    has shows no error, tells the peer to drop the address, and removes
    the last account of the list, where [reconnectAddress] on the same
    input shows the error and changes nothing else. *)
Theorem removeAddress_absent_removes_last_account :
  let r := Registry [Account (js "0xaa") (js "key1");
                     Account (js "0xbb") (js "key2")]
             {[ js "0xaa" := ONLINE; js "0xbb" := ONLINE ]} [] [] in
  getAccountByAddress ascii_toLowerCase r (js "0xcc") = None
  /\ removeAddress ascii_toLowerCase (js "eth") (js "0xcc") r
     = Registry [Account (js "0xaa") (js "key1")]
         {[ js "0xaa" := ONLINE; js "0xbb" := ONLINE ]}
         [RemoveAddress (js "eth") (js "0xcc")] []
  /\ reconnectAddress ascii_toLowerCase (js "eth") (js "0xcc") r
     = Registry (accounts r) (accountsStatus r) []
         [AddressNotFound12 (js "0xcc")].
Proof.
  cbn zeta. split; [reflexivity|]. split.
  - by rewrite removeAddress_absent.
  - by rewrite reconnectAddress_absent.
Qed.

(** C8, on the code: [reconnectAllAddresses] and [reconnectAddress] use
    the address as it is written as the key, so that after them the
    status map has a key that is not lower-cased. *)
Theorem reconnect_sets_key_as_written :
  let r := Registry [Account (js "0xAbC") (js "key1")] ∅ [] [] in
  keys_lower_cased ascii_toLowerCase r
  /\ accountsStatus (reconnectAllAddresses (js "eth") r) !! js "0xAbC"
     = Some AUTHORIZING
  /\ accountsStatus
       (reconnectAddress ascii_toLowerCase (js "eth") (js "0xAbC") r)
       !! js "0xAbC" = Some AUTHORIZING
  /\ ascii_toLowerCase (js "0xAbC") <> js "0xAbC"
  /\ ~ keys_lower_cased ascii_toLowerCase
         (reconnectAllAddresses (js "eth") r)
  /\ ~ keys_lower_cased ascii_toLowerCase
         (reconnectAddress ascii_toLowerCase (js "eth") (js "0xAbC") r).
Proof.
  cbn zeta.
  assert (H1 : accountsStatus
                 (reconnectAllAddresses (js "eth")
                    (Registry [Account (js "0xAbC") (js "key1")] ∅ [] []))
                 !! js "0xAbC" = Some AUTHORIZING) by apply lookup_insert_eq.
  assert (H2 : accountsStatus
                 (reconnectAddress ascii_toLowerCase (js "eth") (js "0xAbC")
                    (Registry [Account (js "0xAbC") (js "key1")] ∅ [] []))
                 !! js "0xAbC" = Some AUTHORIZING) by apply lookup_insert_eq.
  assert (H3 : ascii_toLowerCase (js "0xAbC") <> js "0xAbC") by done.
  split_and!; [|done..| |].
  - intros k Hk. cbn in Hk. rewrite lookup_empty in Hk. by destruct Hk.
  - intros Hkeys. apply H3, Hkeys. by rewrite H1.
  - intros Hkeys. apply H3, Hkeys. by rewrite H2.
Qed.

(** A challenge for "BSC" received by the registry of "Eth". *)
Lemma challenge_for_other_blockchain_ignored_witness :
  let r := Registry [Account (js "0xaa") (js "key1")]
             {[ js "0xaa" := AUTHORIZING ]} [] [] in
  let message := Challenge (js "m1") (js "BSC") (js "0xAA") (js "nonce") in
  ascii_toLowerCase (payload_blockchain message) <> ascii_toLowerCase (js "Eth")
  /\ on_addressAuthChallenge ascii_toLowerCase (js "Eth") sample_sign
       message r = r.
Proof.
  cbn zeta. split; [done|].
  apply (challenge_for_other_blockchain_ignored ascii_toLowerCase). done.
Defined.

(** Hydration with two accounts and no status: both are marked and
    announced; a second run announces nothing. *)
Example watch_on_hydration :
  let r := Registry [Account (js "0xAa") (js "key1");
                     Account (js "0xBb") (js "key2")] ∅ [] [] in
  let r' := accounts_watch ascii_toLowerCase (js "eth") r in
  r' = Registry (accounts r)
         {[ js "0xaa" := AUTHORIZING; js "0xbb" := AUTHORIZING ]}
         [AddAddress (js "eth") (js "0xAa") 2;
          AddAddress (js "eth") (js "0xBb") 2] []
  /\ accounts_watch ascii_toLowerCase (js "eth") r' = r'.
Proof. cbn zeta. split; vm_compute; reflexivity. Qed.

(** The same challenge for this blockchain is answered. *)
Example challenge_for_this_blockchain_answered :
  let r := Registry [Account (js "0xaa") (js "key1")]
             {[ js "0xaa" := AUTHORIZING ]} [] [] in
  let message := Challenge (js "m1") (js "ETH") (js "0xAA") (js "nonce") in
  outbox (on_addressAuthChallenge ascii_toLowerCase (js "Eth") sample_sign
            message r)
  = [Response (js "m1") true (Some (js "key1nonce"))].
Proof. reflexivity. Qed.

(** ** Properties of the encrypted store *)

Import Storage.

(** Without a password ([null] or the empty string), for every name,
    default value and codec, [useReactiveEncryptedStorage] shows the
    error and returns what [ElMessage.error] returned; it reads no slot
    and writes none: the only effect is the message, and the persisted
    slots and the random source are as they were. *)
Theorem no_password_no_storage_access {T : Type} (falsy : T -> bool)
    (encode : T -> Rand js_string) (decode : js_string -> js_error + T)
    (storagePassword : option js_string) (name : js_string)
    (defaultValue : T) (w : world) :
  truthy storagePassword = false ->
  useReactiveEncryptedStorage falsy encode decode storagePassword name
    defaultValue w
  = (MessageHandle PasswordNotSet,
     World (localStorage w) (effects w ++ [ElMessageError PasswordNotSet])
       (random w)).
Proof.
  intros Hpw. unfold useReactiveEncryptedStorage. by rewrite Hpw.
Qed.

(** C7 (amended). Without a password ([null] or the empty string), for
    every name, default value and codec, [useReactiveEncryptedStorage]
    does not fail: it shows the error, and its promise is fulfilled,
    with what [ElMessage.error] returned in place of a store. It reads
    no slot and writes none: the only effect is the message, and the
    persisted slots and the random source are as they were. *)
Theorem no_password_fulfilled_without_storage_access {T : Type}
    (falsy : T -> bool) (encode : T -> Rand js_string)
    (decode : js_string -> js_error + T)
    (storagePassword : option js_string) (name : js_string)
    (defaultValue : T) (w : world) :
  truthy storagePassword = false ->
  useReactiveEncryptedStorage_promise falsy encode decode storagePassword
    name defaultValue w
  = (inr (MessageHandle PasswordNotSet),
     World (localStorage w) (effects w ++ [ElMessageError PasswordNotSet])
       (random w)).
Proof.
  intros Hpw. unfold useReactiveEncryptedStorage_promise.
  by rewrite (no_password_no_storage_access falsy encode decode
                storagePassword name defaultValue w Hpw).
Qed.

(** C7 as stated fails: without a password the promise of
    [useReactiveEncryptedStorage] is fulfilled, not rejected; no error
    reaches the caller. *)
Lemma no_password_is_fulfilled :
  let w := World {[ js "eth-accounts" := js "blob" ]} [] Toy.counting in
  let settled :=
    (useReactiveEncryptedStorage_promise
       (fun s : js_string => bool_decide (s = []))
       (fun data => encryptData (H := Toy.primitives) data (js "pw"))
       (fun data => decryptData (H := Toy.primitives) data (js "pw"))
       None (js "eth-accounts") [] w).1 in
  settled = inr (MessageHandle PasswordNotSet)
  /\ forall e : js_error, settled <> inl e.
Proof. cbn zeta. split; [reflexivity|]. intros e. discriminate. Qed.

(** Opening a store with the cipher as its codec and no password. *)
Lemma no_password_fulfilled_without_storage_access_witness :
  let w := World {[ js "eth-accounts" := js "blob" ]} [] Toy.counting in
  truthy None = false
  /\ useReactiveEncryptedStorage_promise
       (fun s : js_string => bool_decide (s = []))
       (fun data => encryptData (H := Toy.primitives) data (js "pw"))
       (fun data => decryptData (H := Toy.primitives) data (js "pw"))
       None (js "eth-accounts") [] w
     = (inr (MessageHandle PasswordNotSet),
        World {[ js "eth-accounts" := js "blob" ]}
          [ElMessageError PasswordNotSet] Toy.counting).
Proof.
  cbn zeta. split; [reflexivity|].
  apply (no_password_fulfilled_without_storage_access
           (fun s : js_string => bool_decide (s = []))).
  reflexivity.
Defined.

(** Opening a store with the cipher as its codec and no password. *)
Lemma no_password_no_storage_access_witness :
  let w := World {[ js "eth-accounts" := js "blob" ]} [] Toy.counting in
  truthy None = false
  /\ useReactiveEncryptedStorage (fun s : js_string => bool_decide (s = []))
       (fun data => encryptData (H := Toy.primitives) data (js "pw"))
       (fun data => decryptData (H := Toy.primitives) data (js "pw"))
       None (js "eth-accounts") [] w
     = (MessageHandle PasswordNotSet,
        World {[ js "eth-accounts" := js "blob" ]}
          [ElMessageError PasswordNotSet] Toy.counting).
Proof.
  cbn zeta. split; [reflexivity|].
  apply (no_password_no_storage_access
           (fun s : js_string => bool_decide (s = []))).
  reflexivity.
Defined.

(** With a password the slot is read and, by the immediate run of the
    watcher, written: here with a codec that stores the value as it is,
    once on a world without the slot and once on a world with it. *)
Example open_without_slot :
  useReactiveEncryptedStorage (fun s : js_string => bool_decide (s = []))
    (fun data => mret data) (fun data => inr data)
    (Some (js "pw")) (js "notes") (js "default") (World ∅ [] Toy.counting)
  = (Store (js "default"),
     World {[ js "notes" := js "default" ]}
       [LocalStorageGetItem (js "notes");
        LocalStorageSetItem (js "notes") (js "default")]
       Toy.counting).
Proof. reflexivity. Qed.

Example open_with_slot :
  useReactiveEncryptedStorage (fun s : js_string => bool_decide (s = []))
    (fun data => mret data) (fun data => inr data)
    (Some (js "pw")) (js "notes") (js "default")
    (World {[ js "notes" := js "kept" ]} [] Toy.counting)
  = (Store (js "kept"),
     World {[ js "notes" := js "kept" ]}
       [LocalStorageGetItem (js "notes"); LocalStorageGetItem (js "notes");
        LocalStorageSetItem (js "notes") (js "kept")]
       Toy.counting).
Proof. reflexivity. Qed.

(** ** More on the account registry *)

Section registry_more.
Context (toLowerCase : js_string -> js_string).
Context (blockchain : js_string).
Context (sign : account -> js_string -> js_string).

Local Abbreviation step := (watch_step toLowerCase blockchain).
Local Abbreviation key a := (toLowerCase (address a)).
Local Abbreviation announce :=
  (fun r a => emit (AddAddress blockchain (address a) version)
                (accountsStatus_set (address a) AUTHORIZING r)).

Lemma reconnect_fold (l : list account) (r : registry) :
  accounts (fold_left announce l r) = accounts r
  /\ notices (fold_left announce l r) = notices r
  /\ outbox (fold_left announce l r)
     = outbox r ++ map (fun a => AddAddress blockchain (address a) 2) l
  /\ (forall k, k ∈ map address l ->
        accountsStatus (fold_left announce l r) !! k = Some AUTHORIZING)
  /\ (forall k, k ∉ map address l ->
        accountsStatus (fold_left announce l r) !! k
        = accountsStatus r !! k).
Proof.
  revert r. induction l as [|b l IH]; intros r.
  { cbn. rewrite app_nil_r. split_and!; [done..| |done].
    intros k Hk. by apply elem_of_nil in Hk. }
  cbn [fold_left map].
  destruct (IH (announce r b)) as (Hacc & Hnot & Hout & Hin & Hframe).
  split_and!.
  - by rewrite Hacc.
  - by rewrite Hnot.
  - rewrite Hout. cbn. by rewrite <- app_assoc.
  - intros k Hk. destruct (decide (k ∈ map address l)) as [Hl|Hl].
    + by apply Hin.
    + apply elem_of_cons in Hk as [->|Hk]; [|done].
      rewrite Hframe by done. cbn. apply lookup_insert_eq.
  - intros k Hk. apply not_elem_of_cons in Hk as [Hne Hk].
    rewrite Hframe by done. cbn. by rewrite lookup_insert_ne.
Qed.

(** X1. [reconnectAllAddresses] (and so the handler of [connect])
    changes neither the list nor what the user was shown; it emits one
    [addAddress], with version 2, for every account of the list, in the
    order of the list, accounts that were already tracked included;
    every address of the list, as it is written, is then AUTHORIZING,
    and the status of every other key is as it was. *)
Theorem reconnectAllAddresses_announces_all (r : registry) :
  let r' := reconnectAllAddresses blockchain r in
  on_connect blockchain r = r'
  /\ accounts r' = accounts r
  /\ notices r' = notices r
  /\ outbox r'
     = outbox r
       ++ map (fun a => AddAddress blockchain (address a) 2) (accounts r)
  /\ (forall a, a ∈ accounts r ->
        accountsStatus r' !! address a = Some AUTHORIZING)
  /\ (forall k, (forall a, a ∈ accounts r -> address a <> k) ->
        accountsStatus r' !! k = accountsStatus r !! k).
Proof.
  cbn zeta. unfold on_connect, reconnectAllAddresses.
  destruct (reconnect_fold (accounts r) r)
    as (Hacc & Hnot & Hout & Hin & Hframe).
  split_and!; [done..| |].
  - intros a Ha. by apply Hin, (list_elem_of_fmap_2 address).
  - intros k Hk. apply Hframe. intros Hin'.
    apply list_elem_of_fmap in Hin' as (a & -> & Ha). by apply (Hk a).
Qed.

(** X2. After a disconnection and the next connection the status map
    is exactly: AUTHORIZING for the addresses of the list as they are
    written, and nothing else; what the peer had answered is
    forgotten. *)
Theorem reconnect_after_disconnect (r : registry) (k : js_string) :
  accountsStatus (on_connect blockchain (on_disconnect r)) !! k
  = if decide (k ∈ map address (accounts r)) then Some AUTHORIZING else None.
Proof.
  unfold on_connect, reconnectAllAddresses.
  destruct (reconnect_fold (accounts (on_disconnect r)) (on_disconnect r))
    as (_ & _ & _ & Hin & Hframe).
  cbn [on_disconnect accounts] in *.
  case_decide.
  - by apply Hin.
  - rewrite Hframe by done. cbn. apply lookup_empty.
Qed.

(** When every account of a list is tracked, the loop of the watcher
    does nothing. *)
Lemma watch_fold_settled (l : list account) (r : registry) :
  (forall a, a ∈ l -> is_Some (accountsStatus r !! key a)) ->
  fold_left step l r = r.
Proof.
  induction l as [|b l IH]; intros Hl; [done|].
  cbn [fold_left].
  assert (Hb : step r b = r).
  { unfold watch_step. destruct (Hl b) as [s ->]; [|done].
    apply elem_of_cons. by left. }
  rewrite Hb. apply IH. intros a Ha. apply Hl, elem_of_cons. by right.
Qed.

Lemma watch_tracks_all (r : registry) (a : account) :
  a ∈ accounts r ->
  is_Some (accountsStatus (accounts_watch toLowerCase blockchain r) !! key a).
Proof.
  intros Ha. unfold accounts_watch.
  destruct (accountsStatus r !! key a) as [s|] eqn:Hs.
  - exists s. by apply watch_fold_keeps.
  - exists AUTHORIZING. by apply watch_fold_marks.
Qed.

(** X3. The watcher is idempotent: after it has run, every account of
    the list is tracked, and a second run changes nothing and emits
    nothing. *)
Theorem accounts_watch_idempotent (r : registry) :
  (forall a, a ∈ accounts r ->
     is_Some (accountsStatus (accounts_watch toLowerCase blockchain r)
                !! key a))
  /\ accounts_watch toLowerCase blockchain
       (accounts_watch toLowerCase blockchain r)
     = accounts_watch toLowerCase blockchain r.
Proof.
  split; [intros a; apply watch_tracks_all|].
  unfold accounts_watch at 1. apply watch_fold_settled.
  intros a Ha. apply watch_tracks_all.
  unfold accounts_watch in Ha.
  by rewrite (proj1 (watch_fold_frame toLowerCase blockchain _ _)) in Ha.
Qed.

(** X4. On a registry whose accounts are all tracked, [createAddress]
    followed by the watcher appends the new account, marks its
    lower-cased address AUTHORIZING and emits exactly one [addAddress]
    for it, when that address has no status entry; nothing else
    changes. *)
Theorem createAddress_then_watch (created : account) (r : registry) :
  (forall a, a ∈ accounts r -> is_Some (accountsStatus r !! key a)) ->
  accountsStatus r !! key created = None ->
  accounts_watch toLowerCase blockchain (createAddress created r)
  = Registry (accounts r ++ [created])
      (<[key created := AUTHORIZING]> (accountsStatus r))
      (outbox r ++ [AddAddress blockchain (address created) 2])
      (notices r).
Proof.
  intros Hsettled Hnew. unfold accounts_watch, createAddress.
  cbn [accounts]. rewrite fold_left_app.
  rewrite (watch_fold_settled (accounts r))
    by (intros a Ha; by apply Hsettled).
  cbn [fold_left]. unfold watch_step. cbn [accountsStatus].
  by rewrite Hnew.
Qed.

(** The same with an address that is already tracked, as when the
    account is made twice from one key: the account is appended and
    nothing is announced. *)
Lemma createAddress_tracked_then_watch (created : account) (r : registry) :
  (forall a, a ∈ accounts r -> is_Some (accountsStatus r !! key a)) ->
  is_Some (accountsStatus r !! key created) ->
  accounts_watch toLowerCase blockchain (createAddress created r)
  = Registry (accounts r ++ [created]) (accountsStatus r) (outbox r)
      (notices r).
Proof.
  intros Hsettled Hold. unfold accounts_watch, createAddress.
  apply watch_fold_settled. cbn [accounts accountsStatus].
  intros a Ha. apply elem_of_app in Ha as [Ha|Ha]; [by apply Hsettled|].
  apply list_elem_of_singleton in Ha as ->. done.
Qed.

End registry_more.

(** ** [removeAddress] of an address of the list, and the handlers *)

Lemma find_first {A} (p : A -> bool) (l : list A) (a : A) :
  find p l = Some a ->
  exists i, l !! i = Some a /\ p a = true
            /\ forall j b, (j < i)%nat -> l !! j = Some b -> p b = false.
Proof.
  induction l as [|x l IH]; intros Hfind; [done|].
  cbn [find] in Hfind. destruct (p x) eqn:Hx.
  - injection Hfind as ->. exists 0%nat. split_and!; [done..|]. lia.
  - destruct (IH Hfind) as (i & Hi & Hp & Hbefore).
    exists (S i). split_and!; [done..|].
    intros [|j] b Hj Hb; [by injection Hb as <-|].
    apply (Hbefore j); [lia|done].
Qed.

Lemma splice_one {A} (l : list A) (i : nat) :
  (i < length l)%nat -> splice (Z.of_nat i) 1 l = delete i l.
Proof.
  intros Hi. unfold splice.
  rewrite (proj2 (Z.ltb_ge _ _)) by lia.
  rewrite delete_take_drop. f_equal; f_equal; lia.
Qed.

Section registry_handlers.
Context (toLowerCase : js_string -> js_string).
Context (blockchain : js_string).
Context (sign : account -> js_string -> js_string).

Local Abbreviation key a := (toLowerCase (address a)).

(** X5. [removeAddress] with a non-empty address that an account of the
    list has, compared in lower case: the first such account is removed
    from the list and the others keep their order; the peer is told to
    drop the address as it was given; the status entry under the
    lower-cased address is deleted and no other; nothing is shown. *)
Theorem removeAddress_present (addr : js_string) (a : account)
    (r : registry) :
  addr <> [] ->
  getAccountByAddress toLowerCase r addr = Some a ->
  exists i,
    accounts r !! i = Some a
    /\ key a = toLowerCase addr
    /\ (forall j b, (j < i)%nat -> accounts r !! j = Some b ->
          key b <> toLowerCase addr)
    /\ removeAddress toLowerCase blockchain addr r
       = Registry (delete i (accounts r))
           (delete (toLowerCase addr) (accountsStatus r))
           (outbox r ++ [RemoveAddress blockchain addr]) (notices r).
Proof.
  intros Hne Hfind. unfold getAccountByAddress in Hfind.
  destruct (find_first _ _ _ Hfind) as (i & Hi & Hp & Hbefore).
  apply bool_decide_eq_true in Hp.
  exists i. split_and!; [done..| |].
  - intros j b Hj Hb. specialize (Hbefore j b Hj Hb).
    by apply bool_decide_eq_false in Hbefore.
  - unfold removeAddress. rewrite bool_decide_false by done.
    unfold getAccountByAddress. rewrite Hfind.
    cbn [emit accountsStatus_delete accounts accountsStatus outbox notices].
    assert (Hidx : list_find (fun b => b = a) (accounts r) = Some (i, a)).
    { apply list_find_Some. split_and!; [done..|].
      intros j b Hb Hj ->. specialize (Hbefore j a Hj Hb).
      apply bool_decide_eq_false in Hbefore. done. }
    unfold indexOf. rewrite Hidx.
    rewrite splice_one; [done|]. by apply lookup_lt_Some in Hi.
Qed.

Lemma challenge_answered_once_frame (message : challenge) (r : registry) :
  accounts (on_addressAuthChallenge toLowerCase blockchain sign message r)
  = accounts r
  /\ accountsStatus
       (on_addressAuthChallenge toLowerCase blockchain sign message r)
     = accountsStatus r.
Proof.
  unfold on_addressAuthChallenge.
  case_bool_decide; cbn [negb]; [|done].
  by destruct (getAccountByAddress toLowerCase r (payload_address message)).
Qed.

(** X6. The handler of [addressAuthChallenge] never changes the list or
    the status map. For a challenge for this blockchain it emits exactly
    one response: with the signature, by [sign], of the first account
    that has the challenged address in lower case, or, when there is
    none, a refusal, after showing the error. *)
Theorem challenge_answered_once (message : challenge) (r : registry) :
  let r' := on_addressAuthChallenge toLowerCase blockchain sign message r in
  accounts r' = accounts r
  /\ accountsStatus r' = accountsStatus r
  /\ (toLowerCase (payload_blockchain message) = toLowerCase blockchain ->
      match getAccountByAddress toLowerCase r (payload_address message) with
      | Some a =>
          a ∈ accounts r
          /\ key a = toLowerCase (payload_address message)
          /\ outbox r'
             = outbox r ++ [Response (messageId message) true
                              (Some (sign a (dataToSign message)))]
          /\ notices r' = notices r
      | None =>
          outbox r' = outbox r ++ [Response (messageId message) false None]
          /\ notices r'
             = notices r ++ [AddressNotFound13 (payload_address message)]
      end).
Proof.
  cbn zeta. unfold on_addressAuthChallenge.
  case_bool_decide as Hbc; cbn [negb].
  - destruct (getAccountByAddress toLowerCase r (payload_address message))
      as [a|] eqn:Hfind; (split_and!; [done..|]); intros _; [|done].
    unfold getAccountByAddress in Hfind.
    destruct (find_first _ _ _ Hfind) as (i & Hi & Hp & _).
    apply bool_decide_eq_true in Hp.
    split_and!; [|done..]. by apply list_elem_of_lookup_2 in Hi.
  - by split_and!.
Qed.

(** After a status was set under a lower-cased address, the watcher
    announces nothing for that address. *)
Lemma watch_after_set_silent (addr : js_string) (st : status)
    (r : registry) (e : emitted) :
  e ∈ drop (length (outbox r))
        (outbox (accounts_watch toLowerCase blockchain
                   (accountsStatus_set (toLowerCase addr) st r))) ->
  announced toLowerCase e <> toLowerCase addr.
Proof.
  intros He. unfold accounts_watch in He.
  destruct (watch_fold_outbox toLowerCase blockchain
              (accounts (accountsStatus_set (toLowerCase addr) st r))
              (accountsStatus_set (toLowerCase addr) st r))
    as (new & Hout & Hsound & _).
  rewrite Hout in He. cbn [accountsStatus_set outbox] in He.
  rewrite drop_app_length in He.
  destruct (Hsound e He) as (a & _ & Hnone & ->).
  cbn [announced]. intros E. rewrite E in Hnone. cbn in Hnone.
  by rewrite lookup_insert_eq in Hnone.
Qed.

(** X7. A challenge result sets the status of the lower-cased address,
    ONLINE for a success and UNAUTHORIZED for a failure, whether or not
    an account has the address, and leaves every other key as it was;
    a run of the watcher after either keeps the result and announces
    nothing for that address. *)
Theorem challenge_result_kept (addr : js_string) (r : registry) :
  let won := on_addressAuthChallengeSuccess toLowerCase addr r in
  let lost := on_addressAuthChallengeFailed toLowerCase addr r in
  accountsStatus won !! toLowerCase addr = Some ONLINE
  /\ accountsStatus lost !! toLowerCase addr = Some UNAUTHORIZED
  /\ (forall k, k <> toLowerCase addr ->
        accountsStatus won !! k = accountsStatus r !! k
        /\ accountsStatus lost !! k = accountsStatus r !! k)
  /\ accounts won = accounts r /\ outbox won = outbox r
  /\ accounts lost = accounts r /\ outbox lost = outbox r
  /\ accountsStatus (accounts_watch toLowerCase blockchain won)
       !! toLowerCase addr = Some ONLINE
  /\ accountsStatus (accounts_watch toLowerCase blockchain lost)
       !! toLowerCase addr = Some UNAUTHORIZED
  /\ (forall e,
        e ∈ drop (length (outbox r))
              (outbox (accounts_watch toLowerCase blockchain won)) ->
        announced toLowerCase e <> toLowerCase addr)
  /\ (forall e,
        e ∈ drop (length (outbox r))
              (outbox (accounts_watch toLowerCase blockchain lost)) ->
        announced toLowerCase e <> toLowerCase addr).
Proof.
  cbn zeta.
  unfold on_addressAuthChallengeSuccess, on_addressAuthChallengeFailed.
  split_and!; try done.
  - cbn. apply lookup_insert_eq.
  - cbn. apply lookup_insert_eq.
  - intros k Hk. cbn. by rewrite !lookup_insert_ne.
  - apply watch_fold_keeps. cbn. apply lookup_insert_eq.
  - apply watch_fold_keeps. cbn. apply lookup_insert_eq.
  - intros e. apply watch_after_set_silent.
  - intros e. apply watch_after_set_silent.
Qed.

(** X8. The operations that lower-case the address they use as a key -
    the watcher, the two challenge results, [removeAddress] and the
    disconnection - keep every key of the status map lower-cased, for a
    [toLowerCase] that leaves lower-cased strings as they are. *)
Theorem lower_casing_operations_keep_keys (r : registry) :
  (forall s, toLowerCase (toLowerCase s) = toLowerCase s) ->
  keys_lower_cased toLowerCase r ->
  keys_lower_cased toLowerCase (accounts_watch toLowerCase blockchain r)
  /\ (forall addr,
        keys_lower_cased toLowerCase
          (on_addressAuthChallengeSuccess toLowerCase addr r)
        /\ keys_lower_cased toLowerCase
             (on_addressAuthChallengeFailed toLowerCase addr r)
        /\ keys_lower_cased toLowerCase
             (removeAddress toLowerCase blockchain addr r))
  /\ (forall message,
        keys_lower_cased toLowerCase
          (on_addressAuthChallenge toLowerCase blockchain sign message r))
  /\ keys_lower_cased toLowerCase (on_disconnect r).
Proof.
  intros Hidem Hr. split_and!.
  - by apply watch_keeps_keys.
  - intros addr. split_and!.
    + by apply challenge_success_keeps_keys.
    + by apply challenge_failed_keeps_keys.
    + by apply removeAddress_keeps_keys.
  - intros message k Hk. apply Hr.
    by rewrite <- (proj2 (challenge_answered_once_frame message r)).
  - apply disconnect_keeps_keys.
Qed.

End registry_handlers.

Lemma ascii_toLowerCase_idempotent (s : js_string) :
  ascii_toLowerCase (ascii_toLowerCase s) = ascii_toLowerCase s.
Proof.
  unfold ascii_toLowerCase. rewrite map_map. apply map_ext. intros c.
  destruct ((0x41 <=? c) && (c <=? 0x5A)) eqn:Hc; [|by rewrite Hc].
  apply andb_true_iff in Hc as [H1 H2]. apply Z.leb_le in H1, H2.
  by rewrite (proj2 (Z.leb_gt (c + 0x20) 0x5A)), andb_false_r by lia.
Qed.

(** A new account on a registry of one tracked account. *)
Lemma createAddress_then_watch_witness :
  let r := Registry [Account (js "0xaa") (js "key1")]
             {[ js "0xaa" := ONLINE ]} [] [] in
  let created := Account (js "0xBb") (js "key2") in
  accountsStatus r !! ascii_toLowerCase (address created) = None
  /\ accounts_watch ascii_toLowerCase (js "eth") (createAddress created r)
     = Registry [Account (js "0xaa") (js "key1"); created]
         {[ js "0xbb" := AUTHORIZING; js "0xaa" := ONLINE ]}
         [AddAddress (js "eth") (js "0xBb") 2] [].
Proof.
  cbn zeta. split; [reflexivity|].
  rewrite (createAddress_then_watch ascii_toLowerCase (js "eth")).
  - reflexivity.
  - intros a Ha. apply list_elem_of_singleton in Ha as ->.
    exists ONLINE. reflexivity.
  - reflexivity.
Defined.

(** Removing "0xBB" from a registry that has "0xAa" and "0xbb". *)
Lemma removeAddress_present_witness :
  let r := Registry [Account (js "0xAa") (js "key1");
                     Account (js "0xbb") (js "key2")]
             {[ js "0xaa" := ONLINE; js "0xbb" := ONLINE ]} [] [] in
  js "0xBB" <> []
  /\ getAccountByAddress ascii_toLowerCase r (js "0xBB")
     = Some (Account (js "0xbb") (js "key2"))
  /\ removeAddress ascii_toLowerCase (js "eth") (js "0xBB") r
     = Registry [Account (js "0xAa") (js "key1")]
         {[ js "0xaa" := ONLINE ]}
         [RemoveAddress (js "eth") (js "0xBB")] [].
Proof.
  cbn zeta. split; [done|]. split; [reflexivity|].
  destruct (removeAddress_present ascii_toLowerCase (js "eth") (js "0xBB")
              (Account (js "0xbb") (js "key2"))
              (Registry [Account (js "0xAa") (js "key1");
                         Account (js "0xbb") (js "key2")]
                 {[ js "0xaa" := ONLINE; js "0xbb" := ONLINE ]} [] []))
    as (i & Hi & _ & _ & ->); [done|reflexivity|].
  destruct i as [|[|i]]; [done| |done]. reflexivity.
Defined.

(** The keys of a registry with the key "0xaa". *)
Lemma lower_casing_operations_keep_keys_witness :
  let r := Registry [Account (js "0xAa") (js "key1")]
             {[ js "0xaa" := ONLINE ]} [] [] in
  keys_lower_cased ascii_toLowerCase r
  /\ keys_lower_cased ascii_toLowerCase
       (accounts_watch ascii_toLowerCase (js "eth") r)
  /\ keys_lower_cased ascii_toLowerCase
       (on_addressAuthChallengeSuccess ascii_toLowerCase (js "0xCC") r).
Proof.
  cbn zeta.
  assert (Hr : keys_lower_cased ascii_toLowerCase
                 (Registry [Account (js "0xAa") (js "key1")]
                    {[ js "0xaa" := ONLINE ]} [] [])).
  { intros k [s Hs]. cbn [accountsStatus] in Hs.
    apply lookup_singleton_Some in Hs as [<- _]. reflexivity. }
  split; [done|].
  destruct (lower_casing_operations_keep_keys ascii_toLowerCase (js "eth")
              sample_sign _ ascii_toLowerCase_idempotent Hr)
    as (Hwatch & Hops & _).
  split; [exact Hwatch|]. exact (proj1 (Hops (js "0xCC"))).
Defined.

(** ** More on the encrypted store *)

Section store_more.
Context {T : Type} (falsy : T -> bool).
Context (encode : T -> Rand js_string) (decode : js_string -> js_error + T).

Lemma write_back_localStorage (name : js_string) (v : T) (w : world) :
  localStorage (write_back encode name v w)
  = match (encode v (random w)).1 with
    | inr blob => <[name := blob]> (localStorage w)
    | inl _ => localStorage w
    end.
Proof.
  unfold write_back. by destruct (encode v (random w)) as [[e|blob] rng].
Qed.

(** X9. With a password, [useReactiveEncryptedStorage] always resolves
    to a store: of the decoded value when the slot is not empty and
    decodes to a value that is not falsy, of the default value
    otherwise. Its immediate write-back then puts the encoding of that
    value into the slot, or, when encoding fails, leaves the storage as
    it was; no other slot is ever changed. *)
Theorem open_with_password (storagePassword : option js_string)
    (name : js_string) (defaultValue : T) (w : world) :
  truthy storagePassword = true ->
  exists v w',
    useReactiveEncryptedStorage falsy encode decode storagePassword name
      defaultValue w = (Store v, w')
    /\ v = match localStorage w !! name with
           | Some (c :: data) =>
               match decode (c :: data) with
               | inr value => if falsy value then defaultValue else value
               | inl _ => defaultValue
               end
           | _ => defaultValue
           end
    /\ localStorage w'
       = match (encode v (random w)).1 with
         | inr blob => <[name := blob]> (localStorage w)
         | inl _ => localStorage w
         end
    /\ (forall other, other <> name ->
          localStorage w' !! other = localStorage w !! other).
Proof.
  intros Hpw. unfold useReactiveEncryptedStorage. rewrite Hpw. cbn [negb].
  unfold getItem. cbn [log localStorage].
  assert (Hframe : forall v w0,
            localStorage w0 = localStorage w -> random w0 = random w ->
            localStorage (write_back encode name v w0)
            = match (encode v (random w)).1 with
              | inr blob => <[name := blob]> (localStorage w)
              | inl _ => localStorage w
              end
            /\ forall other, other <> name ->
                 localStorage (write_back encode name v w0) !! other
                 = localStorage w !! other).
  { intros v w0 Hls Hrng. rewrite write_back_localStorage, Hls, Hrng.
    split; [done|]. intros other Hne.
    destruct (encode v (random w)).1; [done|by rewrite lookup_insert_ne]. }
  destruct (localStorage w !! name) as [[|c data]|] eqn:Hslot; cbn [truthy].
  - eexists _, _. split; [done|]. split; [done|]. by apply Hframe.
  - destruct (decode (c :: data)) as [e|value] eqn:Hdec.
    + eexists _, _. split; [done|]. split; [done|]. by apply Hframe.
    + eexists _, _. split; [done|]. split; [done|]. by apply Hframe.
  - eexists _, _. split; [done|]. split; [done|]. by apply Hframe.
Qed.

Lemma open_with_password_value (storagePassword : option js_string)
    (name : js_string) (defaultValue : T) (w : world) :
  truthy storagePassword = true ->
  exists w',
    useReactiveEncryptedStorage falsy encode decode storagePassword name
      defaultValue w
    = (Store match localStorage w !! name with
             | Some (c :: data) =>
                 match decode (c :: data) with
                 | inr value => if falsy value then defaultValue else value
                 | inl _ => defaultValue
                 end
             | _ => defaultValue
             end, w').
Proof.
  intros Hpw. unfold useReactiveEncryptedStorage. rewrite Hpw. cbn [negb].
  unfold getItem. cbn [log localStorage].
  destruct (localStorage w !! name) as [[|c data]|]; cbn [truthy];
    [by eexists| |by eexists].
  destruct (decode (c :: data)); by eexists.
Qed.

(** X10. A slot that does not decode, as under a wrong password, is
    lost on opening: the error is logged and shown, the store is the
    default value, and the immediate write-back overwrites the slot with
    the encoding of the default value. *)
Theorem undecodable_slot_is_overwritten (storagePassword : option js_string)
    (name : js_string) (defaultValue : T) (w : world)
    (c : Z) (data blob : js_string) (e : js_error) (rng : entropy) :
  truthy storagePassword = true ->
  localStorage w !! name = Some (c :: data) ->
  decode (c :: data) = inl e ->
  encode defaultValue (random w) = (inr blob, rng) ->
  useReactiveEncryptedStorage falsy encode decode storagePassword name
    defaultValue w
  = (Store defaultValue,
     World (<[name := blob]> (localStorage w))
       (effects w ++ [LocalStorageGetItem name; LocalStorageGetItem name;
                      ConsoleError e; ElMessageError StorageReadError;
                      LocalStorageSetItem name blob])
       rng).
Proof.
  intros Hpw Hslot Hdec Henc.
  unfold useReactiveEncryptedStorage. rewrite Hpw. cbn [negb].
  unfold getItem. cbn [log localStorage]. rewrite Hslot. cbn [truthy].
  rewrite Hdec. unfold write_back. cbn [log random localStorage effects].
  rewrite Henc. unfold setItem, log. cbn [localStorage effects random].
  by rewrite <- !app_assoc.
Qed.

(** X11. What the write-back persisted is what the next opening
    returns: when the value is not falsy, its encoding is not the empty
    string and decodes to it, opening the store after a write-back of
    the value resolves to the value, whatever the default. *)
Theorem written_back_value_is_reopened (storagePassword : option js_string)
    (name : js_string) (value defaultValue : T) (w : world)
    (blob : js_string) (rng : entropy) :
  truthy storagePassword = true ->
  encode value (random w) = (inr blob, rng) ->
  blob <> [] ->
  decode blob = inr value ->
  falsy value = false ->
  (useReactiveEncryptedStorage falsy encode decode storagePassword name
     defaultValue (write_back encode name value w)).1
  = Store value.
Proof.
  intros Hpw Henc Hblob Hdec Hfalsy.
  destruct (open_with_password_value storagePassword name defaultValue
              (write_back encode name value w) Hpw) as (w' & ->).
  cbn [fst]. rewrite write_back_localStorage, Henc. cbn [fst].
  rewrite lookup_insert_eq.
  destruct blob as [|c data]; [done|]. by rewrite Hdec, Hfalsy.
Qed.

End store_more.

(** Opening over a slot that holds "kept", with a codec that stores the
    value as it is. *)
Lemma open_with_password_witness :
  truthy (Some (js "pw")) = true
  /\ exists v w',
      useReactiveEncryptedStorage
        (fun s : js_string => bool_decide (s = []))
        (fun data => mret data) (fun data => inr data)
        (Some (js "pw")) (js "notes") (js "default")
        (World {[ js "notes" := js "kept"; js "other" := js "x" ]} []
           Toy.counting)
      = (Store v, w')
      /\ v = js "kept"
      /\ localStorage w' !! js "other" = Some (js "x").
Proof.
  split; [reflexivity|].
  destruct (open_with_password (fun s : js_string => bool_decide (s = []))
              (fun data => mret data) (fun data => inr data)
              (Some (js "pw")) (js "notes") (js "default")
              (World {[ js "notes" := js "kept"; js "other" := js "x" ]} []
                 Toy.counting) eq_refl)
    as (v & w' & Hopen & Hv & _ & Hother).
  exists v, w'. split; [done|]. split; [by rewrite Hv|].
  rewrite Hother; [reflexivity|done].
Defined.

(** Opening over a slot that the decoder rejects. *)
Lemma undecodable_slot_is_overwritten_witness :
  useReactiveEncryptedStorage (fun s : js_string => bool_decide (s = []))
    (fun data => mret data) (fun _ => inl OperationError)
    (Some (js "pw")) (js "notes") (js "default")
    (World {[ js "notes" := js "secret" ]} [] Toy.counting)
  = (Store (js "default"),
     World {[ js "notes" := js "default" ]}
       [LocalStorageGetItem (js "notes"); LocalStorageGetItem (js "notes");
        ConsoleError OperationError; ElMessageError StorageReadError;
        LocalStorageSetItem (js "notes") (js "default")]
       Toy.counting).
Proof.
  rewrite (undecodable_slot_is_overwritten
             (fun s : js_string => bool_decide (s = []))
             (fun data => mret data) (fun _ => inl OperationError)
             (Some (js "pw")) (js "notes") (js "default")
             (World {[ js "notes" := js "secret" ]} [] Toy.counting)
             115 (js "ecret") (js "default") OperationError Toy.counting);
    reflexivity.
Defined.

(** Writing "kept" back and opening again. *)
Lemma written_back_value_is_reopened_witness :
  (useReactiveEncryptedStorage (fun s : js_string => bool_decide (s = []))
     (fun data => mret data) (fun data => inr data)
     (Some (js "pw")) (js "notes") (js "default")
     (write_back (fun data => mret data) (js "notes") (js "kept")
        (World ∅ [] Toy.counting))).1
  = Store (js "kept").
Proof.
  apply (written_back_value_is_reopened
           (fun s : js_string => bool_decide (s = []))
           (fun data => mret data) (fun data => inr data)
           (Some (js "pw")) (js "notes") (js "kept") (js "default")
           (World ∅ [] Toy.counting) (js "kept") Toy.counting);
    reflexivity || done.
Defined.

(** ** The codecs, and the stores over them *)

Section codec_facts.
Context `{Primitives} (Hhash : HashLawful) (Hgcm : GcmLawful).

(** What [encryptData] returns is never the empty string, and
    [decryptData] under the same password reads back the decoding of
    the encoding of the plaintext. *)
Lemma encrypt_then_decrypt (P W : js_string) (rng : entropy) :
  exists blob,
    encryptData P W rng = (inr blob, Entropy (tape rng) (cursor rng + 28))
    /\ blob <> []
    /\ decryptData blob W = inr (Text.decode (Text.encode P)).
Proof.
  eexists. split; [apply (encryptData_eq Hhash)|]. split.
  - intros E. apply (f_equal length) in E.
    rewrite length_map, length_app, drawn_salt_length in E. cbn in E. lia.
  - rewrite (decryptData_sealed Hhash Hgcm). by rewrite (gcm_ad_ae Hgcm).
Qed.

(** X12. The default codec reads back what it wrote: for a value whose
    JSON text is a well-formed string that does not start with U+FEFF
    and parses to the value, and for every password and state of the
    random source, encoding gives a blob that is not empty and that
    decodes, under the same password, to the value. *)
Theorem default_codec_roundtrip {T} (JSON_stringify : T -> js_string)
    (JSON_parse : js_string -> js_error + T) (password : js_string)
    (v : T) (rng : entropy) :
  Text.well_formed (JSON_stringify v) = true ->
  Text.starts_with_bom (JSON_stringify v) = false ->
  JSON_parse (JSON_stringify v) = inr v ->
  exists blob rng',
    default_encode JSON_stringify password v rng = (inr blob, rng')
    /\ blob <> []
    /\ default_decode JSON_parse password blob = inr v.
Proof.
  intros Hwf Hbom Hparse. unfold default_encode, default_decode.
  destruct (encrypt_then_decrypt (JSON_stringify v) password rng)
    as (blob & Henc & Hne & Hdec).
  exists blob, (Entropy (tape rng) (cursor rng + 28)).
  split_and!; [assumption..|].
  rewrite Hdec, result_bind_inr, TextFacts.decode_encode by assumption.
  assumption.
Qed.

(** X13. The store of the accounts keeps the private keys only. After
    a write-back of a list of accounts, opening the store again under
    the same password resolves to the accounts that [create] makes of
    the keys of the list, in order: the list itself when each of its
    accounts is what [create] makes of its key. The JSON text of the
    keys is taken to be well formed, not to start with U+FEFF, and to
    parse to the keys. *)
Theorem accounts_store_reopened
    (JSON_stringify : list js_string -> js_string)
    (JSON_parse : js_string -> js_error + list js_string)
    (create : js_string -> account) (password name : js_string)
    (l : list account) (w : world) :
  password <> [] ->
  Text.well_formed (JSON_stringify (map privateKey l)) = true ->
  Text.starts_with_bom (JSON_stringify (map privateKey l)) = false ->
  JSON_parse (JSON_stringify (map privateKey l)) = inr (map privateKey l) ->
  let reopened :=
    (useReactiveEncryptedStorage (fun _ => false)
       (accounts_encode JSON_stringify password)
       (accounts_decode JSON_parse create password)
       (Some password) name []
       (write_back (accounts_encode JSON_stringify password) name l w)).1 in
  reopened = Store (map create (map privateKey l))
  /\ ((forall a, a ∈ l -> create (privateKey a) = a) -> reopened = Store l).
Proof.
  intros Hpw Hwf Hbom Hparse. cbn zeta.
  assert (Hopen :
    (useReactiveEncryptedStorage (fun _ => false)
       (accounts_encode JSON_stringify password)
       (accounts_decode JSON_parse create password)
       (Some password) name []
       (write_back (accounts_encode JSON_stringify password) name l w)).1
    = Store (map create (map privateKey l))).
  { destruct (open_with_password_value (fun _ : list account => false)
                (accounts_encode JSON_stringify password)
                (accounts_decode JSON_parse create password)
                (Some password) name []
                (write_back (accounts_encode JSON_stringify password) name l w))
      as (w' & ->); [by destruct password|].
    cbn [fst]. rewrite write_back_localStorage.
    unfold accounts_encode, accounts_decode.
    destruct (encrypt_then_decrypt (JSON_stringify (map privateKey l))
                password (random w)) as (blob & Henc & Hne & Hdec).
    rewrite Henc. cbn [fst]. rewrite lookup_insert_eq.
    destruct blob as [|c data]; [exfalso; apply Hne; reflexivity|].
    rewrite Hdec, result_bind_inr, TextFacts.decode_encode by assumption.
    rewrite Hparse, result_bind_inr. reflexivity. }
  split; [done|]. intros Hcreate. rewrite Hopen. f_equal.
  rewrite map_map. rewrite <- (map_id l) at 2.
  apply map_ext_in. intros a Ha. apply Hcreate. by apply list_elem_of_In.
Qed.

End codec_facts.

(** The default codec on "hi", with a JSON that writes a string as it
    is. *)
Lemma default_codec_roundtrip_witness :
  exists blob rng',
    default_encode (H := Toy.primitives) (fun s : js_string => s)
      (js "pw") (js "hi") Toy.counting = (inr blob, rng')
    /\ blob <> []
    /\ default_decode (H := Toy.primitives) (fun s => inr s) (js "pw") blob
       = inr (js "hi").
Proof.
  apply (default_codec_roundtrip toy_hash_lawful toy_gcm_lawful
           (fun s : js_string => s) (fun s => inr s)); reflexivity.
Defined.

(** The store of one account made of the key "key1". *)
Lemma accounts_store_reopened_witness :
  (useReactiveEncryptedStorage (fun _ => false)
     (accounts_encode (H := Toy.primitives) sample_stringify (js "pw"))
     (accounts_decode (H := Toy.primitives) sample_parse sample_create
        (js "pw"))
     (Some (js "pw")) (js "eth-accounts") []
     (write_back
        (accounts_encode (H := Toy.primitives) sample_stringify (js "pw"))
        (js "eth-accounts") [sample_create (js "key1")]
        (World ∅ [] Toy.counting))).1
  = Store [sample_create (js "key1")].
Proof.
  destruct (accounts_store_reopened toy_hash_lawful toy_gcm_lawful
              sample_stringify sample_parse sample_create (js "pw")
              (js "eth-accounts") [sample_create (js "key1")]
              (World ∅ [] Toy.counting)) as [Hopen _];
    [discriminate|reflexivity..|].
  exact Hopen.
Defined.

(** ** More on [encryptData] and [decryptData] *)

Lemma fromCharCode_range (b : byte) : 0 <= fromCharCode b < 256.
Proof.
  unfold fromCharCode. pose proof (byte_to_Z_range b).
  rewrite Z.mod_small by lia. lia.
Qed.

Lemma Z_to_byte_low (u : Z) : Z_to_byte (u mod 256) = Z_to_byte u.
Proof. apply Z_to_byte_mod, Zmod_mod. Qed.

Section cipher_more.
Context `{Primitives} (Hhash : HashLawful).

(** X14. [decryptData] rejects, with [OperationError], every string
    shorter than 44 code units - the salt, the nonce and a tag - under
    every password: the empty string and a blob cut anywhere before the
    end of what an empty plaintext gives are never read as data. *)
Theorem decryptData_rejects_below_44 (data password : js_string) :
  (length data < 44)%nat ->
  decryptData data password = inl OperationError.
Proof.
  intros Hlen. rewrite (decryptData_eq Hhash).
  rewrite length_drop, length_map.
  rewrite (proj2 (Nat.ltb_lt _ _)) by lia. reflexivity.
Qed.

(** X15. [decryptData] reads the low byte of every code unit of its
    input and nothing else: a string and the string of its code units
    modulo 256 decrypt alike, so a change of a blob above the low bytes
    is not noticed. *)
Theorem decryptData_reads_low_bytes (data password : js_string) :
  decryptData (map (fun u => u mod 256) data) password
  = decryptData data password.
Proof.
  unfold decryptData. rewrite map_map.
  rewrite (map_ext (fun u => Z_to_byte (u mod 256)) Z_to_byte)
    by apply Z_to_byte_low.
  reflexivity.
Qed.

(** X16. The blob of [encryptData] is a string of bytes: every code
    unit is below 256, so that reading it back as bytes and bytes as
    code units loses nothing, and it has at least 44 code units. *)
Theorem blob_is_string_of_bytes (Hgcm : GcmLawful) (data password : js_string)
    (rng : entropy) :
  exists blob,
    (encryptData data password rng).1 = inr blob
    /\ Forall (fun u => 0 <= u < 256) blob
    /\ map fromCharCode (map Z_to_byte blob) = blob
    /\ (44 <= length blob)%nat.
Proof.
  eexists. split; [apply (encryptData_blob Hhash)|]. split_and!.
  - apply Forall_forall. intros u Hu.
    apply list_elem_of_fmap in Hu as (b & -> & _). apply fromCharCode_range.
  - by rewrite string_of_bytes_to_bytes.
  - rewrite length_map, !length_app, drawn_salt_length, drawn_iv_length.
    rewrite sealed_eq, length_app, (gcm_tag_length Hgcm). lia.
Qed.

(** X17. Two calls of [encryptData] that draw different salts, or
    different nonces, return different blobs, whatever the plaintexts
    and the passwords. *)
Theorem fresh_salt_or_nonce_fresh_blob (data1 data2 pw1 pw2 : js_string)
    (rng1 rng2 : entropy) :
  drawn_salt rng1 <> drawn_salt rng2 \/ drawn_iv rng1 <> drawn_iv rng2 ->
  (encryptData data1 pw1 rng1).1 <> (encryptData data2 pw2 rng2).1.
Proof.
  intros Hfresh. rewrite !(encryptData_blob Hhash). intros E.
  apply (inj inr) in E. apply (f_equal (map Z_to_byte)) in E.
  rewrite !string_of_bytes_to_bytes in E.
  apply app_inj_1 in E as [Hsalt E];
    [|by rewrite !drawn_salt_length].
  apply app_inj_1 in E as [Hiv _];
    [|by rewrite !drawn_iv_length].
  by destruct Hfresh.
Qed.

End cipher_more.

(** A string of 43 code units. *)
Lemma decryptData_rejects_below_44_witness :
  (length (replicate 43 0x41) < 44)%nat
  /\ decryptData (H := Toy.primitives) (replicate 43 0x41) (js "pw")
     = inl OperationError.
Proof.
  split; [cbn; lia|].
  apply (decryptData_rejects_below_44 toy_hash_lawful). cbn. lia.
Defined.

(** The blob of "hi" under "pw". *)
Lemma blob_is_string_of_bytes_witness :
  exists blob,
    (encryptData (H := Toy.primitives) (js "hi") (js "pw") Toy.counting).1
    = inr blob
    /\ Forall (fun u => 0 <= u < 256) blob
    /\ map fromCharCode (map Z_to_byte blob) = blob
    /\ (44 <= length blob)%nat.
Proof. apply (blob_is_string_of_bytes toy_hash_lawful toy_gcm_lawful). Defined.

(** Two calls in a row, the second from where the first left the random
    source. *)
Lemma fresh_salt_or_nonce_fresh_blob_witness :
  (encryptData (H := Toy.primitives) (js "hi") (js "pw") Toy.counting).1
  <> (encryptData (H := Toy.primitives) (js "hi") (js "pw")
        (Entropy (tape Toy.counting) 28)).1.
Proof.
  apply (fresh_salt_or_nonce_fresh_blob toy_hash_lawful).
  left. intros E. vm_compute in E. discriminate E.
Defined.

(** ** [storagePassword] and [useLocalStorageRef] *)

Import Refs.

(** X18. A string assigned to the ref of [useLocalStorageRef] is what
    the next [useLocalStorageRef] of the name starts from, unless it is
    the empty string: then the next one starts from its default value.
    No other slot changes, and an assignment of the value the ref
    already has writes nothing. *)
Theorem useLocalStorageRef_reads_back (name value current : js_string)
    (localStorage : gmap js_string js_string) :
  useLocalStorageRef_assign name current current localStorage = localStorage
  /\ (value <> current ->
      (forall defaultValue,
         useLocalStorageRef name defaultValue
           (useLocalStorageRef_assign name value current localStorage)
         = if bool_decide (value = []) then defaultValue else value)
      /\ (forall other, other <> name ->
            useLocalStorageRef_assign name value current localStorage
              !! other = localStorage !! other)).
Proof.
  unfold useLocalStorageRef_assign, useLocalStorageRef. split.
  { by rewrite bool_decide_true. }
  intros Hne. rewrite bool_decide_false by done. split.
  - intros defaultValue. rewrite lookup_insert_eq.
    by destruct value.
  - intros other Hother. by rewrite lookup_insert_ne.
Qed.

(** X19. The password assigned to [storagePassword] is what the next
    load of the page, in the session, starts with; for [null] that is
    the string "null", which is a password to the guard of
    [useReactiveEncryptedStorage]: after the password was set to [null]
    and the page loaded again, every store opens. *)
Theorem storagePassword_reloaded (value current : option js_string)
    (sessionStorage : gmap js_string js_string) :
  value <> current ->
  let reloaded :=
    storagePassword_init
      (storagePassword_assign value current sessionStorage).2 in
  reloaded = Some (to_storage_string value)
  /\ (value = None ->
      reloaded = Some (js "null")
      /\ forall (T : Type) (falsy : T -> bool)
           (encode : T -> Rand js_string)
           (decode : js_string -> js_error + T)
           (name : js_string) (defaultValue : T) (w : world),
           exists v w',
             useReactiveEncryptedStorage falsy encode decode reloaded name
               defaultValue w = (Store v, w')).
Proof.
  intros Hne. cbn zeta.
  assert (Hreload :
    storagePassword_init
      (storagePassword_assign value current sessionStorage).2
    = Some (to_storage_string value)).
  { unfold storagePassword_assign, storagePassword_init.
    rewrite bool_decide_false by done. cbn [snd]. apply lookup_insert_eq. }
  split; [done|]. intros ->. split; [done|].
  intros T falsy encode decode name defaultValue w. rewrite Hreload.
  destruct (open_with_password_value falsy encode decode
              (Some (to_storage_string None)) name defaultValue w eq_refl)
    as (w' & Hopen).
  eauto.
Qed.

(** Assigning "dark" over "light"; and assigning the empty string. *)
Lemma useLocalStorageRef_reads_back_witness :
  js "dark" <> js "light"
  /\ useLocalStorageRef (js "theme") (js "light")
       (useLocalStorageRef_assign (js "theme") (js "dark") (js "light") ∅)
     = js "dark"
  /\ useLocalStorageRef (js "theme") (js "light")
       (useLocalStorageRef_assign (js "theme") [] (js "dark")
          {[ js "theme" := js "dark" ]})
     = js "light".
Proof.
  split; [done|]. split.
  - destruct (useLocalStorageRef_reads_back (js "theme") (js "dark")
                (js "light") ∅) as [_ Hback].
    destruct Hback as [Hread _]; [done|]. by rewrite Hread.
  - destruct (useLocalStorageRef_reads_back (js "theme") [] (js "dark")
                {[ js "theme" := js "dark" ]}) as [_ Hback].
    destruct Hback as [Hread _]; [done|]. by rewrite Hread.
Defined.

(** Setting the password "pw" to [null]. *)
Lemma storagePassword_reloaded_witness :
  None <> Some (js "pw")
  /\ storagePassword_init
       (storagePassword_assign None (Some (js "pw"))
          {[ js "storagePassword" := js "pw" ]}).2
     = Some (js "null").
Proof.
  split; [done|].
  destruct (storagePassword_reloaded None (Some (js "pw"))
              {[ js "storagePassword" := js "pw" ]}) as [Hreload _];
    [done|].
  exact Hreload.
Defined.

(** X20. [decryptData] has one way to fail: every rejection, under any
    password and on any string, is the [OperationError] of
    [crypto.subtle.decrypt], so that a caller cannot tell a wrong
    password from a damaged or a cut blob; and when it does not fail the
    result is the decoding of what GCM gave for the three slices of the
    input. *)
Theorem decryptData_fails_one_way `{Primitives} (Hhash : HashLawful)
    (data password : js_string) (e : js_error) :
  decryptData data password = inl e ->
  e = OperationError
  /\ ((length data < 44)%nat
      \/ gcm_ad (derived_key password (take 16 (map Z_to_byte data)))
           (take 12 (drop 16 (map Z_to_byte data)))
           (take (length (drop 28 (map Z_to_byte data)) - 16)
              (drop 28 (map Z_to_byte data)))
           (drop (length (drop 28 (map Z_to_byte data)) - 16)
              (drop 28 (map Z_to_byte data))) = None).
Proof.
  rewrite (decryptData_eq Hhash).
  destruct (length (drop 28 (map Z_to_byte data)) <? 16)%nat eqn:Hlen.
  - intros [= <-]. split; [reflexivity|]. left.
    apply Nat.ltb_lt in Hlen. rewrite length_drop, length_map in Hlen. lia.
  - destruct (gcm_ad _ _ _ _) eqn:Hgcm; [discriminate|].
    intros [= <-]. split; [reflexivity|]. by right.
Qed.

(** The failure on a string of three code units. *)
Lemma decryptData_fails_one_way_witness :
  decryptData (H := Toy.primitives) [1; 2; 3] (js "pw") = inl OperationError
  /\ OperationError = OperationError.
Proof.
  assert (Hfail : decryptData (H := Toy.primitives) [1; 2; 3] (js "pw")
                  = inl OperationError).
  { rewrite (decryptData_eq toy_hash_lawful). reflexivity. }
  split; [exact Hfail|].
  exact (proj1 (decryptData_fails_one_way toy_hash_lawful [1; 2; 3]
                  (js "pw") OperationError Hfail)).
Defined.
